(** * io-ts-fuzzer: the core fuzzers and the registry that composes them

    A shallow embedding of [src/core/core.ts] (the rules [fuzzNumber],
    [fuzzBoolean], [fuzzString], [fuzzUnion], [fuzzInterface], [fuzzPartial]
    and the list [coreFuzzers]) together with the registry they are loaded
    into.

    Conventions.
    - A seed is a JavaScript number holding an integer; it is a [Z] here.
      Up to [2 ^ 53] in magnitude every integer is such a number, above it
      only those [Number.representable] accepts.  The operators the rules
      apply to a seed ([%], [&], [**], template literals) are written out
      with their ECMAScript meaning on integers.
    - JavaScript code runs against a mutable world (heap, globals, whatever
      a callee may touch).  The world is an abstract type [World]; a
      computation is a function from the world to an outcome and a new world
      and may throw.
    - An object is the list of its own properties in own-property order. *)

From stdpp Require Import base option list strings pretty sorting gmap.
From Stdlib Require Import ZArith Lia.

Set Warnings "-register-all".

Local Open Scope Z_scope.

(** ** Values *)

Inductive value : Type :=
| VNum (n : Z)
| VBool (b : bool)
| VStr (s : string)
| VObj (o : list (string * value)).

Inductive error : Type :=
| TypeError
| UnsupportedSchema.

Inductive Res (A : Type) : Type :=
| Ok (a : A)
| Throw (e : error).
Arguments Ok {A} a.
Arguments Throw {A} e.

(** ** Numbers *)

Module Number.

(** [x % y] keeps the sign of the dividend; [x % 0] is [NaN]. *)
Definition rem (x y : Z) : option Z :=
  if decide (y = 0) then None else Some (Z.rem x y).

Definition ToInt32 (x : Z) : Z :=
  let m := x mod 2 ^ 32 in
  if decide (2 ^ 31 ≤ m) then m - 2 ^ 32 else m.

(** [x & y] on the 32-bit two's complement images of both operands. *)
Definition band (x y : Z) : Z := Z.land (ToInt32 x) (ToInt32 y).

(** [2 ** i] for an index [i] of [forEach]. *)
Definition pow2 (i : nat) : Z := 2 ^ Z.of_nat i.

Definition truthy (x : Z) : bool := negb (x =? 0).

Definition digit_char (d : N) : Ascii.ascii := Ascii.ascii_of_N (48 + d).

Fixpoint digits (fuel : nat) (x : N) (acc : string) : string :=
  match fuel with
  | O => acc
  | S fuel' =>
      if (x =? 0)%N then acc
      else digits fuel' (x / 10)%N (String (digit_char (x mod 10)%N) acc)
  end.

Definition digits_of (x : N) : string := digits (N.to_nat (N.size x)) x "".

(** [Number.isSafeInteger]: up to [2 ^ 53 - 1] in magnitude every integer
    is a Number. *)
Definition isSafeInteger (n : Z) : bool := Z.abs n <=? 2 ^ 53 - 1.


(** From [2 ^ 53] on the Numbers are [ulp x] apart above [x] and
    [gap_below x] apart below it. *)
Definition ulp (x : Z) : Z := 2 ^ (Z.log2 x - 52).

Definition gap_below (x : Z) : Z :=
  if x =? 2 ^ Z.log2 x then ulp x / 2 else ulp x.

(** [rounds_to v x]: the Number nearest to the integer [v] is [x]; a [v]
    half way between two Numbers goes to the one with the even
    significand. *)
Definition rounds_to (v x : Z) : bool :=
  if Z.even (x / ulp x)
  then (2 * x - gap_below x <=? 2 * v) && (2 * v <=? 2 * x + ulp x)
  else (2 * x - gap_below x <? 2 * v) && (2 * v <? 2 * x + ulp x).

(** The multiple of [p] that rounds to [x] and is nearest to [x], if there
    is one; of two equally near the one with the even last digit. *)
Definition nearest (x p : Z) : option Z :=
  let lo := x / p * p in
  let hi := lo + p in
  match rounds_to lo x, rounds_to hi x with
  | true, true =>
      Some (if x - lo <? hi - x then lo
            else if hi - x <? x - lo then hi
            else if Z.even (lo / p) then lo else hi)
  | true, false => Some lo
  | false, true => Some hi
  | false, false => None
  end.

(** The integer with the fewest significant digits that rounds to [x]:
    multiples of [10 ^ j] are tried first, then of [10 ^ (j - 1)], down to
    the multiples of 1, of which [x] itself rounds to [x]. *)
Fixpoint shortest (j : nat) (x : Z) : Z :=
  match nearest x (10 ^ Z.of_nat j), j with
  | Some v, _ => v
  | None, O => x
  | None, S j' => shortest j' x
  end.

Definition num_digits (x : Z) : nat := String.length (digits_of (Z.to_N x)).

Fixpoint strip_zeros (fuel : nat) (s : Z) : Z :=
  match fuel with
  | O => s
  | S fuel' => if s mod 10 =? 0 then strip_zeros fuel' (s / 10) else s
  end.

(** [d.ddde+n], or [de+n] for a single digit. *)
Definition exponential (v : Z) : string :=
  let n := num_digits v in
  let e := "e+" +:+ digits_of (N.of_nat (n - 1)) in
  match digits_of (Z.to_N (strip_zeros n v)) with
  | String d EmptyString => String d e
  | String d ds => String d ("." +:+ ds +:+ e)
  | EmptyString => EmptyString
  end.

(** The notation of a positive integer Number.  Below [2 ^ 53] every integer
    is a Number and the only integer that rounds to it is itself, so all its
    digits are printed.  From [2 ^ 53] on the digits are those of the
    shortest integer that rounds to it, zeros filling the rest, and from 22
    digits on the notation has an exponent. *)
Definition magnitude (x : N) : string :=
  if (x <? 2 ^ 53)%N then digits_of x
  else
    let v := shortest (num_digits (Z.of_N x) - 1) (Z.of_N x) in
    if (num_digits v <=? 21)%nat then digits_of (Z.to_N v)
    else exponential v.

(** [Number::toString] on a Number that is an integer. *)
Definition toString (n : Z) : string :=
  match n with
  | Z0 => "0"
  | Zpos p => magnitude (Npos p)
  | Zneg p => "-" +:+ magnitude (Npos p)
  end.

End Number.

(** ** The leaf rules of core.ts *)

Definition fuzzBoolean (n : Z) : bool :=
  match Number.rem n 2 with
  | Some r => bool_decide (r = 0)
  | None => false
  end.

Definition fuzzNumber (n : Z) : Z := n.

Definition fuzzString (n : Z) : string := Number.toString n.

(** ** Objects

    An object is the list of its own string-keyed properties, in the order
    [Object.getOwnPropertyNames] reports them: array indices first, in
    ascending numeric order, then the other keys in the order they were
    created. *)

Module Obj.

Definition digit_of (c : Ascii.ascii) : option N :=
  let n := Ascii.N_of_ascii c in
  if decide (48 ≤ n ≤ 57)%N then Some (n - 48)%N else None.

Fixpoint parse_digits (s : string) (acc : N) : option N :=
  match s with
  | EmptyString => Some acc
  | String c s' => d ← digit_of c; parse_digits s' (10 * acc + d)%N
  end.

(** A key is an array index when it is the canonical decimal notation of
    an integer below [2 ^ 32 - 1]. *)
Definition array_index (k : string) : option N :=
  n ← parse_digits k 0;
  if decide (Number.toString (Z.of_N n) = k ∧ (n < 2 ^ 32 - 1)%N)
  then Some n else None.

Section Properties.
Context {A : Type}.

Fixpoint get (k : string) (o : list (string * A)) : option A :=
  match o with
  | [] => None
  | (k', v) :: o' => if decide (k' = k) then Some v else get k o'
  end.

Definition getOwnPropertyNames (o : list (string * A)) : list string :=
  o.*1.

Fixpoint replace (k : string) (v : A) (o : list (string * A))
  : list (string * A) :=
  match o with
  | [] => []
  | (k', v') :: o' =>
      if decide (k' = k) then (k', v) :: o' else (k', v') :: replace k v o'
  end.

Fixpoint insert_index (n : N) (k : string) (v : A) (o : list (string * A))
  : list (string * A) :=
  match o with
  | [] => [(k, v)]
  | (k', v') :: o' =>
      match array_index k' with
      | Some n' =>
          if decide (n' < n)%N then (k', v') :: insert_index n k v o'
          else (k, v) :: o
      | None => (k, v) :: o
      end
  end.

(** [o[k] = v] on an object without setters and without prototype. *)
Definition set (k : string) (v : A) (o : list (string * A))
  : list (string * A) :=
  if decide (k ∈ o.*1) then replace k v o
  else match array_index k with
       | Some n => insert_index n k v o
       | None => o ++ [(k, v)]
       end.

End Properties.

(** [key_before k k']: key [k] may stand before key [k'] in the own
    property order of one object. *)
Definition key_before (k k' : string) : bool :=
  match array_index k, array_index k' with
  | Some n, Some n' => (n <? n')%N
  | Some _, None => true
  | None, Some _ => false
  | None, None => bool_decide (k ≠ k')
  end.

(** The keys of an object, as [getOwnPropertyNames] lists them. *)
Definition own_order (ks : list string) : Prop :=
  StronglySorted (λ k k', key_before k k') ks.

#[global] Instance own_order_dec ks : Decision (own_order ks) :=
  @StronglySorted_dec _ (λ k k', Is_true (key_before k k'))
    (λ k k', Is_true_dec _) ks.

End Obj.

(** ** Schema descriptors

    The io-ts types the fuzzers read.  core.ts reads [_tag], [types] (of a
    union) and [props] (of an interface or partial type); [type] is the
    element type of the array types.  A field a type does not have is
    empty; each rule is typed to receive only descriptors that have the
    fields it reads. *)

Inductive Descriptor : Type :=
  MkType (name : option string) (_tag : string)
         (type : option Descriptor)
         (types : list Descriptor)
         (props : list (string * Descriptor)).

Definition name (b : Descriptor) : option string :=
  let 'MkType x _ _ _ _ := b in x.
Definition _tag (b : Descriptor) : string :=
  let 'MkType _ x _ _ _ := b in x.
Definition type (b : Descriptor) : option Descriptor :=
  let 'MkType _ _ x _ _ := b in x.
Definition types (b : Descriptor) : list Descriptor :=
  let 'MkType _ _ _ x _ := b in x.
Definition props (b : Descriptor) : list (string * Descriptor) :=
  let 'MkType _ _ _ _ x := b in x.

(** The tags of [BasicType]. *)
Definition BasicType : list string :=
  [ "NullType"; "UndefinedType"; "VoidType"; "UnknownType"; "StringType";
    "NumberType"; "BooleanType"; "AnyArrayType"; "AnyDictionaryType";
    "RefinementType"; "LiteralType"; "KeyofType"; "RecursiveType";
    "ArrayType"; "InterfaceType"; "PartialType"; "DictionaryType";
    "UnionType"; "TupleType"; "ReadonlyType"; "ReadonlyArrayType";
    "ExactType" ].

(** The constructors of io-ts the tests use, with the names io-ts gives. *)
Module t.

Definition name_of (b : Descriptor) : string := default "" (name b).

Definition string : Descriptor :=
  MkType (Some "string") "StringType" None [] [].
Definition number : Descriptor :=
  MkType (Some "number") "NumberType" None [] [].
Definition boolean : Descriptor :=
  MkType (Some "boolean") "BooleanType" None [] [].

Definition union (ts : list Descriptor) : Descriptor :=
  MkType (Some ("(" +:+ String.concat " | " (name_of <$> ts) +:+ ")"))
         "UnionType" None ts [].

Definition interface_name (ps : list (String.string * Descriptor))
  : String.string :=
  "{ " +:+ String.concat ", " ((λ p, p.1 +:+ ": " +:+ name_of p.2) <$> ps)
       +:+ " }".

Definition type (ps : list (String.string * Descriptor)) : Descriptor :=
  MkType (Some (interface_name ps)) "InterfaceType" None [] ps.

Definition partial (ps : list (String.string * Descriptor)) : Descriptor :=
  MkType (Some ("Partial<" +:+ interface_name ps +:+ ">")) "PartialType"
         None [] ps.

End t.

Class ToValue (A : Type) := to_value : A → value.
#[global] Instance number_to_value : ToValue Z := VNum.
#[global] Instance boolean_to_value : ToValue bool := VBool.
#[global] Instance string_to_value : ToValue string := VStr.

Inductive IdType : Type := IdTag | IdName.

Section Fuzzers.
Context {World : Type}.

(** *** Computations *)

Definition M (A : Type) : Type := World → Res A * World.

#[global] Instance M_ret : MRet M := λ A a w, (Ok a, w).
#[global] Instance M_bind : MBind M := λ A B f m w,
  match m w with
  | (Ok a, w') => f a w'
  | (Throw e, w') => (Throw e, w')
  end.

Definition throw {A : Type} (e : error) : M A := λ w, (Throw e, w).

(** [l.forEach((v, i) => ...)], the variable the callback assigns to being
    threaded through as [s]. *)
Fixpoint forEach {A St : Type} (f : St → A → nat → M St)
    (l : list A) (i : nat) (s : St) : M St :=
  match l with
  | [] => mret s
  | v :: l' => s' ← f s v i; forEach f l' (S i) s'
  end.

(** *** Fuzzers *)

(** Modelled from the spec: the types [ConcreteFuzzer], [fuzzGenerator] and
    [Fuzzer] of fuzzer.ts, which is not among the sources, as core.ts uses
    them.  A composed child is an object with [encode(n)]; a concrete fuzzer
    declares its children and a function of the seed and the composed
    children; a definition holds either such a function without children
    ([type: 'fuzzer']) or a function from the descriptor to a concrete
    fuzzer ([type: 'generator']), and the id it is registered under. *)
Record Encoder : Type := { encode : Z → M value }.

Record ConcreteFuzzer : Type :=
  { children : list Descriptor;
    func : Z → list Encoder → M value }.

Inductive Impl : Type :=
| ImplFuzzer (f : Z → list Encoder → M value)
| ImplGenerator (f : Descriptor → ConcreteFuzzer).

Record Fuzzer : Type :=
  { impl : Impl; id : string; idType : IdType }.

(** *** core.ts *)

Definition concrete (f : Z → list Encoder → M value) (t : string) : Fuzzer :=
  {| impl := ImplFuzzer f; id := t; idType := IdTag |}.

Definition gen (f : Descriptor → ConcreteFuzzer) (t : string) : Fuzzer :=
  {| impl := ImplGenerator f; id := t; idType := IdTag |}.

(** A function of the seed alone, called as [func(n, ...h)]. *)
Definition of_seed {A : Type} `{ToValue A} (f : Z → A)
  : Z → list Encoder → M value :=
  λ n _, mret (to_value (f n)).

(** The encoder of a rule without children. *)
Definition leaf (f : Z → list Encoder → M value) : Encoder :=
  {| encode := λ n, f n [] |}.

(** [h[i]] for a number [i]. *)
Definition at_index {A : Type} (h : list A) (i : Z) : option A :=
  if decide (0 ≤ i) then h !! Z.to_nat i else None.

(** [keys[i]] used as a property key: a missing element is [undefined]. *)
Definition key_at (keys : list string) (i : nat) : string :=
  default "undefined" (keys !! i).

(** *** The composite rules of core.ts *)

Definition fuzzUnion (b : Descriptor) : ConcreteFuzzer :=
  {| children := types b;
     func := λ n h,
       match Number.rem n (Z.of_nat (length h)) ≫= at_index h with
       | Some c => encode c n
       | None => throw TypeError
       end |}.

Definition fuzzInterface (b : Descriptor) : ConcreteFuzzer :=
  let keys := Obj.getOwnPropertyNames (props b) in
  let vals := omap (λ k, Obj.get k (props b)) keys in
  {| children := vals;
     func := λ n h,
       ret ← forEach (λ ret v i,
                x ← encode v n;
                mret (Obj.set (key_at keys i) x ret)) h 0%nat [];
       mret (VObj ret) |}.

Definition fuzzPartial (b : Descriptor) : ConcreteFuzzer :=
  let keys := Obj.getOwnPropertyNames (props b) in
  let vals := omap (λ k, Obj.get k (props b)) keys in
  {| children := vals;
     func := λ n h,
       ret ← forEach (λ ret v i,
                if Number.truthy (Number.band n (Number.pow2 i))
                then x ← encode v n;
                     mret (Obj.set (key_at keys i) x ret)
                else mret ret) h 0%nat [];
       mret (VObj ret) |}.

Definition coreFuzzers : list Fuzzer :=
  [ concrete (of_seed fuzzNumber) "NumberType";
    concrete (of_seed fuzzBoolean) "BooleanType";
    concrete (of_seed fuzzString) "StringType";
    gen fuzzUnion "UnionType";
    gen fuzzInterface "InterfaceType";
    gen fuzzPartial "PartialType" ].

End Fuzzers.

Arguments M : clear implicits.
Arguments Encoder : clear implicits.
Arguments ConcreteFuzzer : clear implicits.
Arguments Impl : clear implicits.
Arguments Fuzzer : clear implicits.

(** ** The registry *)

Record GenerationContext : Type := { remainingDepth : Z }.

Section Registry.
Context {World : Type}.

(** The key a definition is stored under: its tag ([inl]) or its name
    ([inr]). *)
Definition key_of (f : Fuzzer World) : string + string :=
  match idType f with
  | IdTag => inl (id f)
  | IdName => inr (id f)
  end.

Local Abbreviation Rules := (gmap (string + string) (Fuzzer World)).
Local Abbreviation Heap :=
  (gmap positive (gmap (string + string) (Fuzzer World))).

(** Modelled from the spec: [createRegistry] of registry.ts, which is not
    among the sources.  A registry is an object on the heap; a new one is
    empty. *)
Definition createRegistry (h : Heap) : positive * Heap :=
  let r := fresh (dom h) in (r, <[r := ∅]> h).

(** Modelled from the spec: [Registry.register] of registry.ts.  Each
    definition is stored under its key, in the order given, and the
    registry itself is returned. *)
Definition register (r : positive) (defs : list (Fuzzer World)) (h : Heap)
  : positive * Heap :=
  (r, alter (λ m, foldl (λ m f, <[key_of f := f]> m) m defs) r h).

(** Modelled from the spec: [Registry.getFuzzer] of registry.ts.  A
    definition keyed by the name of the descriptor wins over the one keyed
    by its tag; the children are not looked at. *)
Definition lookup_rule (m : Rules) (d : Descriptor) : option (Fuzzer World) :=
  match name d ≫= (λ x, m !! inr x) with
  | Some f => Some f
  | None => m !! inl (_tag d)
  end.

Definition getFuzzer (r : positive) (d : Descriptor) (h : Heap)
  : option (Fuzzer World) :=
  h !! r ≫= λ m, lookup_rule m d.

Fixpoint compose_all (f : Descriptor → option (Res (Encoder World)))
    (ds : list Descriptor) : option (Res (list (Encoder World))) :=
  match ds with
  | [] => Some (Ok [])
  | d :: ds' =>
      match f d with
      | None => None
      | Some (Throw e) => Some (Throw e)
      | Some (Ok c) =>
          match compose_all f ds' with
          | None => None
          | Some (Throw e) => Some (Throw e)
          | Some (Ok cs) => Some (Ok (c :: cs))
          end
      end
  end.

(** Modelled from the spec: the composition behind
    [Registry.exampleGenerator] of registry.ts.  Every node of the tree is
    resolved when the generator is composed; a node without a definition
    makes the composition fail with [UnsupportedSchema].  The children a
    rule declares need not be parts of the descriptor, so the recursion is
    bounded by [fuel]; [None] says the fuel ran out. *)
Fixpoint compose (fuel : nat) (m : Rules) (d : Descriptor)
  : option (Res (Encoder World)) :=
  match fuel with
  | O => None
  | S fuel' =>
      match lookup_rule m d with
      | None => Some (Throw UnsupportedSchema)
      | Some f =>
          match impl f with
          | ImplFuzzer g => Some (Ok (leaf g))
          | ImplGenerator g =>
              match compose_all (compose fuel' m) (children (g d)) with
              | None => None
              | Some (Throw e) => Some (Throw e)
              | Some (Ok hs) =>
                  Some (Ok {| encode := λ n, func (g d) n hs |})
              end
          end
      end
  end.

Definition exampleGenerator (fuel : nat) (r : positive) (d : Descriptor)
    (h : Heap) : option (Res (Encoder World)) :=
  h !! r ≫= λ m, compose fuel m d.

(** Modelled from the spec: [fuzzContext] and the [encode(seed, context)]
    of a composed generator.  The rules of core.ts call [encode(n)] with
    the seed alone and none of them reads the context. *)
Definition fuzzContext (maxRecursionHint : Z) : GenerationContext :=
  {| remainingDepth := maxRecursionHint |}.

Definition generate (g : Encoder World) (seed : Z) (c : GenerationContext)
  : M World value :=
  encode g seed.

End Registry.

(** ** Vocabulary of the statements *)

Section Vocabulary.
Context {World : Type}.

(** [returns c n v]: in every world, [c.encode(n)] returns [v] and leaves
    the world as it found it. *)
Definition returns (c : Encoder World) (n : Z) (v : value) : Prop :=
  ∀ w, encode c n w = (Ok v, w).

(** The callback of the two object rules, the test of [fuzzPartial] as a
    parameter. *)
Definition assign_body (inc : nat → bool) (keys : list string) (n : Z)
  : list (string * value) → Encoder World → nat
    → M World (list (string * value)) :=
  λ ret v i,
    if inc i then x ← encode v n; mret (Obj.set (key_at keys i) x ret)
    else mret ret.

(** The properties [ks !! j := vs !! j] whose position [i + j] passes
    [inc], in order. *)
Fixpoint selected (inc : nat → bool) (i : nat) (ks : list string)
    (vs : list value) : list (string * value) :=
  match ks, vs with
  | k :: ks', v :: vs' =>
      (if inc i then [(k, v)] else []) ++ selected inc (S i) ks' vs'
  | _, _ => []
  end.

(** [pure_encoder c]: the outcome of [c.encode(n)] is the same in every
    world, and the world is left as it was found. *)
Definition pure_encoder (c : Encoder World) : Prop :=
  ∀ n, ∃ out, ∀ w, encode c n w = (out, w).

Definition pure_func (f : Z → list (Encoder World) → M World value) : Prop :=
  ∀ hs, Forall pure_encoder hs → ∀ n, ∃ out, ∀ w, f n hs w = (out, w).

(** A definition is pure when its function is, given pure children. *)
Definition pure_rule (f : Fuzzer World) : Prop :=
  match impl f with
  | ImplFuzzer g => pure_func g
  | ImplGenerator g => ∀ d, pure_func (func (g d))
  end.

(** [resolves_under m d f]: in a registry with the definitions [m], the
    lookup for [d] arrives at the key of [f]. *)
Definition resolves_under (m : gmap (string + string) (Fuzzer World))
    (d : Descriptor) (f : Fuzzer World) : Prop :=
  match idType f with
  | IdName => name d = Some (id f)
  | IdTag => _tag d = id f ∧ name d ≫= (λ x, m !! inr x) = None
  end.

(** The definitions of a registry in which [coreFuzzers] has been
    registered, and nothing else. *)
Definition core_rules : gmap (string + string) (Fuzzer World) :=
  foldl (λ m f, <[key_of f := f]> m) ∅ coreFuzzers.

Definition numberEncoder : Encoder World := leaf (of_seed fuzzNumber).
Definition booleanEncoder : Encoder World := leaf (of_seed fuzzBoolean).
Definition stringEncoder : Encoder World := leaf (of_seed fuzzString).

End Vocabulary.

(** The two definitions for strings of the registry tests. *)
Definition fuzzStr1 {World : Type} : Fuzzer World :=
  {| id := "StringType"; idType := IdTag;
     impl := ImplFuzzer (of_seed (λ n, "Hello " +:+ Number.toString n)) |}.

Definition fuzzStr2 {World : Type} : Fuzzer World :=
  {| id := "StringType"; idType := IdTag;
     impl := ImplFuzzer (of_seed (λ n, "Bye " +:+ Number.toString n)) |}.

Definition exampleUnion : Descriptor := t.union [t.number; t.string].
Definition exampleType : Descriptor :=
  t.type [("a", t.number); ("j", t.boolean)].
Definition examplePartial : Descriptor :=
  t.partial [("a", t.number); ("b", t.string)].

(** The encoders of their children, in a world without state. *)
Definition exampleUnionChildren : list (Encoder unit) :=
  [numberEncoder; stringEncoder].
Definition exampleTypeChildren : list (Encoder unit) :=
  [numberEncoder; booleanEncoder].
Definition examplePartialChildren : list (Encoder unit) :=
  [numberEncoder; stringEncoder].

(** A partial type of 33 properties [p0], ..., [p32], all numbers. *)
Definition props33 : list (string * Descriptor) :=
  (λ i : nat, ("p" +:+ pretty i, t.number)) <$> seq 0 33.

(** ** Vocabulary of the further statements *)

Section Runs.
Context {World : Type}.

(** [run_all n hs w vs w']: calling [encode(n)] on the children [hs] from
    left to right, each once, starting in the world [w], returns the values
    [vs] and ends in the world [w']. *)
Inductive run_all (n : Z)
  : list (Encoder World) → World → list value → World → Prop :=
| run_all_nil w : run_all n [] w [] w
| run_all_cons c hs w v w1 vs w2 :
    encode c n w = (Ok v, w1) →
    run_all n hs w1 vs w2 →
    run_all n (c :: hs) w (v :: vs) w2.

End Runs.

(** A child with an effect: the world counts the calls, and the value shows
    the count the call found. *)
Definition tickEncoder : Encoder nat :=
  {| encode := λ n w, (Ok (VNum (n + Z.of_nat w)), S w) |}.

(** An interface type with a union among its properties. *)
Definition exampleNested : Descriptor :=
  t.type [("a", t.number); ("u", exampleUnion); ("j", t.boolean)].

(** The encoder of [exampleUnion], as composed from its children. *)
Definition exampleUnionEncoder : Encoder unit :=
  {| encode := λ n, func (fuzzUnion exampleUnion) n exampleUnionChildren |}.

(** ** Facts about numbers *)

Lemma digit_char_pretty d : (d < 10)%N → Number.digit_char d = pretty_N_char d.
Proof.
  intros Hd. unfold Number.digit_char, pretty_N_char.
  destruct d as [|p]; [done|].
  do 4 (destruct p as [p|p|]; try done; try lia).
Qed.

Lemma digits_pretty fuel : ∀ x acc,
  (x < 2 ^ N.of_nat fuel)%N → Number.digits fuel x acc = pretty_N_go x acc.
Proof.
  induction fuel as [|fuel IH]; intros x acc Hsz.
  - assert (x = 0%N) as -> by (simpl in Hsz; lia).
    by rewrite pretty_N_go_0.
  - simpl. destruct (N.eqb_spec x 0) as [->|Hx].
    + by rewrite pretty_N_go_0.
    + rewrite pretty_N_go_step by lia.
      rewrite digit_char_pretty by (apply N.mod_lt; lia).
      apply IH. apply N.Div0.div_lt_upper_bound.
      rewrite Nat2N.inj_succ, N.pow_succ_r' in Hsz. lia.
Qed.

Lemma digits_of_pretty x : x ≠ 0%N → Number.digits_of x = pretty x.
Proof.
  intros Hx. unfold Number.digits_of, pretty, pretty_N.
  rewrite decide_False by done. apply digits_pretty.
  rewrite N2Nat.id. apply N.size_gt.
Qed.

Lemma toString_pretty n :
  Number.isSafeInteger n = true → Number.toString n = pretty n.
Proof.
  unfold Number.isSafeInteger. intros Hn%Z.leb_le.
  destruct n as [|p|p]; simpl; [done|..]; unfold Number.magnitude;
    rewrite (proj2 (N.ltb_lt (N.pos p) (2 ^ 53))) by lia;
    by rewrite digits_of_pretty.
Qed.

Lemma rem_2_even n : Z.rem n 2 = 0 ↔ Z.Even n.
Proof.
  rewrite Z.rem_divide by lia. split.
  - intros [k ->]. exists k. lia.
  - intros [k ->]. exists k. lia.
Qed.

Lemma ToInt32_range x : - 2 ^ 31 ≤ Number.ToInt32 x < 2 ^ 31.
Proof.
  unfold Number.ToInt32. pose proof (Z.mod_pos_bound x (2 ^ 32) ltac:(lia)).
  case_decide; lia.
Qed.

Lemma ToInt32_testbit x j :
  0 ≤ j < 32 → Z.testbit (Number.ToInt32 x) j = Z.testbit x j.
Proof.
  intros Hj.
  rewrite <- (Z.mod_pow2_bits_low (Number.ToInt32 x) 32 j) by lia.
  rewrite <- (Z.mod_pow2_bits_low x 32 j) by lia.
  f_equal. unfold Number.ToInt32. case_decide; [|by rewrite Z.mod_mod].
  rewrite <- (Z.mod_add _ 1) by lia.
  replace (x mod 2 ^ 32 - 2 ^ 32 + 1 * 2 ^ 32) with (x mod 2 ^ 32) by lia.
  by rewrite Z.mod_mod.
Qed.

Lemma ToInt32_sign x j :
  31 ≤ j → Z.testbit (Number.ToInt32 x) j = Z.testbit (Number.ToInt32 x) 31.
Proof.
  intros Hj. pose proof (ToInt32_range x) as Hr.
  set (a := Number.ToInt32 x) in *.
  rewrite !Z.testbit_odd, !Z.shiftr_div_pow2 by lia.
  assert (2 ^ 31 ≤ 2 ^ j) by (apply Z.pow_le_mono_r; lia).
  destruct (decide (0 ≤ a)).
  - rewrite !Z.div_small; [done| lia | lia].
  - assert (∀ b, - a ≤ b → 0 < b → a / b = -1) as Hdiv.
    { intros b ??. symmetry. apply Z.div_unique with (r := a + b); lia. }
    rewrite !Hdiv by lia. done.
Qed.

Lemma pow2_high i : (32 ≤ i)%nat → Number.ToInt32 (Number.pow2 i) = 0.
Proof.
  intros Hi. unfold Number.ToInt32, Number.pow2.
  replace (Z.of_nat i) with (32 + (Z.of_nat i - 32)) by lia.
  rewrite Z.pow_add_r by lia.
  rewrite Z.mul_comm, Z.mod_mul by lia. done.
Qed.

Lemma pow2_low_testbit i j :
  (i < 32)%nat → 0 ≤ j < 32 →
  Z.testbit (Number.ToInt32 (Number.pow2 i)) j = bool_decide (j = Z.of_nat i).
Proof.
  intros Hi Hj. rewrite ToInt32_testbit by done. unfold Number.pow2.
  case_bool_decide as E.
  - subst. apply Z.pow2_bits_true. lia.
  - apply Z.pow2_bits_false. lia.
Qed.

Lemma included_spec n i :
  Number.truthy (Number.band n (Number.pow2 i)) = true
  ↔ (i < 32)%nat ∧ Z.testbit n (Z.of_nat i) = true.
Proof.
  unfold Number.truthy, Number.band. rewrite negb_true_iff, Z.eqb_neq.
  destruct (decide (i < 32)%nat) as [Hi|Hi].
  - rewrite <- (ToInt32_testbit n) by lia.
    set (a := Number.ToInt32 n). set (b := Number.ToInt32 (Number.pow2 i)).
    split.
    + intros Hne. split; [done|].
      destruct (Z.testbit a (Z.of_nat i)) eqn:E; [done|].
      exfalso. apply Hne. apply Z.bits_inj'. intros j Hj.
      rewrite Z.land_spec, Z.bits_0.
      destruct (decide (j < 32)).
      * unfold b. rewrite pow2_low_testbit by lia.
        case_bool_decide; subst; [by rewrite E|by rewrite andb_false_r].
      * unfold a, b.
        rewrite (ToInt32_sign n j), (ToInt32_sign (Number.pow2 i) j) by lia.
        fold a. rewrite pow2_low_testbit by lia.
        case_bool_decide as E'; [|by rewrite andb_false_r].
        rewrite <- E' in E. by rewrite E.
    + intros [_ Hbit] Hz.
      assert (Z.testbit (Z.land a b) (Z.of_nat i) = true) as Hl.
      { rewrite Z.land_spec, Hbit. unfold b. rewrite pow2_low_testbit by lia.
        by rewrite bool_decide_true. }
      rewrite Hz, Z.bits_0 in Hl. done.
  - rewrite pow2_high by lia. rewrite Z.land_0_r. split; [done|]. intros [? _]. lia.
Qed.


(** ** Facts about objects *)

Lemma array_index_toString k n :
  Obj.array_index k = Some n → k = Number.toString (Z.of_N n).
Proof.
  unfold Obj.array_index. destruct (Obj.parse_digits k 0) as [m|]; simpl; [|done].
  case_decide as H; [|done]. intros [= <-]. by destruct H.
Qed.

Lemma key_before_ne k k' : Obj.key_before k k' → k ≠ k'.
Proof.
  unfold Obj.key_before. intros H ->.
  destruct (Obj.array_index k') as [n|] eqn:E.
  - apply Is_true_true, N.ltb_lt in H. lia.
  - apply bool_decide_unpack in H. done.
Qed.

Lemma own_order_NoDup ks : Obj.own_order ks → NoDup ks.
Proof.
  induction 1 as [|k ks _ IH Hall]; constructor; [|done].
  intros Hin. rewrite Forall_forall in Hall.
  by apply (key_before_ne k k); [apply Hall|].
Qed.

Section ObjectFacts.
Context {A : Type}.
Implicit Types (o : list (string * A)) (k : string) (v : A).

Lemma get_None k o : Obj.get k o = None ↔ k ∉ o.*1.
Proof.
  induction o as [|[k' v'] o IH]; simpl.
  - split; [intros _; apply not_elem_of_nil|done].
  - case_decide as E; rewrite not_elem_of_cons.
    + split; [done|]. intros [? _]. congruence.
    + rewrite IH. split; [split; [congruence|done]|by intros [_ ?]].
Qed.

Lemma get_lookup o i k v :
  NoDup o.*1 → o !! i = Some (k, v) → Obj.get k o = Some v.
Proof.
  revert i. induction o as [|[k' v'] o IH]; intros i Hnd Hi; [done|].
  apply NoDup_cons in Hnd as [Hk' Hnd]. simpl.
  destruct i as [|i]; simpl in Hi.
  - simplify_eq. by rewrite decide_True.
  - rewrite decide_False; [by eapply IH|].
    intros ->. apply Hk'. apply list_elem_of_fmap.
    exists (k, v). split; [done|]. by eapply list_elem_of_lookup_2.
Qed.

Lemma insert_index_snoc n k v o :
  Forall (λ k', Obj.key_before k' k) o.*1 →
  Obj.array_index k = Some n →
  Obj.insert_index n k v o = o ++ [(k, v)].
Proof.
  intros Hall Hk. induction o as [|[k' v'] o IH]; [done|].
  simpl in *. apply Forall_cons in Hall as [Hk' Hall].
  unfold Obj.key_before in Hk'. rewrite Hk in Hk'.
  destruct (Obj.array_index k') as [n'|]; [|done].
  apply Is_true_true, N.ltb_lt in Hk'.
  rewrite decide_True by done. by rewrite IH.
Qed.

Lemma set_snoc k v o :
  Obj.own_order (o.*1 ++ [k]) → Obj.set k v o = o ++ [(k, v)].
Proof.
  intros Hord. apply StronglySorted_app in Hord as (Hbefore & _ & _).
  assert (Forall (λ k', Obj.key_before k' k) o.*1) as Hall.
  { apply Forall_forall. intros k' Hk'. apply Hbefore; [done|].
    apply list_elem_of_singleton. done. }
  unfold Obj.set. rewrite decide_False.
  - destruct (Obj.array_index k) as [n|] eqn:E; [|done].
    by apply insert_index_snoc.
  - intros Hin. rewrite Forall_forall in Hall.
    by apply (key_before_ne k k); [apply Hall|].
Qed.

Lemma replace_keys k v o : (Obj.replace k v o).*1 = o.*1.
Proof.
  induction o as [|[k' v'] o IH]; [done|]. simpl.
  case_decide; csimpl; [done|]. by rewrite IH.
Qed.

Lemma insert_index_keys n k v o k0 :
  k0 ∈ (Obj.insert_index n k v o).*1 → k0 = k ∨ k0 ∈ o.*1.
Proof.
  induction o as [|[k' v'] o IH]; simpl.
  - rewrite list_elem_of_singleton. auto.
  - destruct (Obj.array_index k') as [n'|]; [case_decide|]; csimpl;
      rewrite ?elem_of_cons; tauto.
Qed.

Lemma set_keys k v o k0 : k0 ∈ (Obj.set k v o).*1 → k0 = k ∨ k0 ∈ o.*1.
Proof.
  unfold Obj.set. case_decide.
  - rewrite replace_keys. auto.
  - destruct (Obj.array_index k) as [n|].
    + apply insert_index_keys.
    + rewrite fmap_app, elem_of_app. simpl.
      rewrite list_elem_of_singleton. tauto.
Qed.

Lemma own_order_remove (l1 l2 : list string) k :
  Obj.own_order (l1 ++ k :: l2) → Obj.own_order (l1 ++ l2).
Proof.
  unfold Obj.own_order. rewrite !StronglySorted_app, StronglySorted_cons.
  intros (Hc & H1 & _ & H2). split_and!; [|done..].
  intros x1 x2 ??. apply Hc; [done|]. by apply elem_of_cons; right.
Qed.

End ObjectFacts.

(** ** Facts about the rules *)

Section RuleFacts.
Context {World : Type}.
Implicit Types (hs : list (Encoder World)) (vs : list value) (w : World).

Lemma key_at_lookup (keys : list string) i k :
  keys !! i = Some k → key_at keys i = k.
Proof. unfold key_at. by intros ->. Qed.

(** With children that return, the loop of the object rules appends the
    selected properties, in order. *)
Lemma forEach_selected inc keys n hs vs :
  Forall2 (λ c v, returns c n v) hs vs →
  ∀ i acc w,
    Obj.own_order (acc.*1 ++ drop i keys) →
    (i + length hs ≤ length keys)%nat →
    forEach (assign_body inc keys n) hs i acc w
    = (Ok (acc ++ selected inc i (drop i keys) vs), w).
Proof.
  induction 1 as [|c v hs vs Hc _ IH]; intros i acc w Hord Hlen.
  - simpl. destruct (drop i keys); simpl; by rewrite app_nil_r.
  - simpl in Hlen.
    destruct (lookup_lt_is_Some_2 keys i ltac:(lia)) as [k Hk].
    rewrite (drop_S _ _ _ Hk) in *. simpl.
    unfold mbind, M_bind, assign_body at 1.
    rewrite (key_at_lookup _ _ _ Hk).
    destruct (inc i).
    + unfold mbind, M_bind. rewrite Hc. unfold mret, M_ret.
      rewrite set_snoc.
      2:{ rewrite cons_middle, (assoc_L (++)) in Hord.
          by apply StronglySorted_app_1_l in Hord. }
      rewrite IH; [|by rewrite fmap_app, <- (assoc_L (++))|lia].
      by rewrite <- (assoc_L (++)).
    + unfold mret, M_ret.
      rewrite IH; [done|by eapply own_order_remove|lia].
Qed.

(** Whatever the children do, the loop only ever assigns keys whose
    position passes the test. *)
Lemma forEach_keys inc keys n hs :
  ∀ i acc w r w',
    forEach (assign_body inc keys n) hs i acc w = (Ok r, w') →
    ∀ k, k ∈ r.*1 →
      k ∈ acc.*1
      ∨ ∃ j, (i ≤ j < i + length hs)%nat ∧ inc j = true ∧ key_at keys j = k.
Proof.
  induction hs as [|c hs IH]; intros i acc w r w' Hrun k Hk.
  - simpl in Hrun. unfold mret, M_ret in Hrun. simplify_eq. by left.
  - simpl in Hrun. unfold mbind, M_bind, assign_body at 1 in Hrun.
    destruct (inc i) eqn:Hinc.
    + unfold mbind, M_bind in Hrun.
      destruct (encode c n w) as [[x|e] w1]; [|done].
      unfold mret, M_ret in Hrun.
      destruct (IH _ _ _ _ _ Hrun k Hk) as [Hin|(j & ? & ? & ?)].
      * apply set_keys in Hin as [->|Hin]; [|by left].
        right. exists i. simpl. split_and!; [lia..|done|done].
      * right. exists j. simpl. split_and!; [lia..|done|done].
    + unfold mret, M_ret in Hrun.
      destruct (IH _ _ _ _ _ Hrun k Hk) as [Hin|(j & ? & ? & ?)]; [by left|].
      right. exists j. simpl. split_and!; [lia..|done|done].
Qed.

Lemma selected_keys inc i ks vs k :
  k ∈ (selected inc i ks vs).*1 → k ∈ ks.
Proof.
  revert i vs. induction ks as [|k0 ks IH]; intros i [|v vs]; simpl;
    try (by intros ?%elem_of_nil).
  rewrite fmap_app, elem_of_app, elem_of_cons. intros [Hin|Hin].
  - left. destruct (inc i); simpl in Hin.
    + by apply list_elem_of_singleton in Hin.
    + by apply elem_of_nil in Hin.
  - right. by eapply IH.
Qed.

Lemma get_selected inc ks : ∀ i vs j k v,
  NoDup ks → ks !! j = Some k → vs !! j = Some v →
  Obj.get k (selected inc i ks vs)
  = if inc (i + j)%nat then Some v else None.
Proof.
  induction ks as [|k0 ks IH]; intros i [|v0 vs] j k v Hnd Hk Hv; try done.
  apply NoDup_cons in Hnd as [Hk0 Hnd]. simpl.
  destruct j as [|j]; simpl in Hk, Hv; simplify_eq.
  - rewrite Nat.add_0_r. destruct (inc i); simpl.
    + by rewrite decide_True.
    + apply get_None. intros Hin. by apply selected_keys in Hin.
  - assert (k0 ≠ k) as Hne.
    { intros ->. apply Hk0. by eapply list_elem_of_lookup_2. }
    replace (i + S j)%nat with (S i + j)%nat by lia.
    destruct (inc i); simpl; [rewrite decide_False by done|];
      by apply (IH (S i) vs j).
Qed.

Lemma selected_all inc ks : ∀ i vs,
  (∀ j, inc j = true) → selected inc i ks vs = zip ks vs.
Proof.
  induction ks as [|k ks IH]; intros i [|v vs] Hinc; simpl; try done.
  rewrite Hinc. simpl. f_equal. by apply IH.
Qed.

Lemma children_of_props (ps : list (string * Descriptor)) :
  NoDup ps.*1 → omap (λ k, Obj.get k ps) ps.*1 = ps.*2.
Proof.
  intros Hnd.
  cut (∀ l, l ⊆ ps → omap (λ k, Obj.get k ps) l.*1 = l.*2).
  { intros Hcut. by apply Hcut. }
  induction l as [|[k d] l IH]; intros Hsub; [done|]. csimpl.
  assert ((k, d) ∈ ps) as Hin by (apply Hsub; left).
  apply list_elem_of_lookup in Hin as [i Hi].
  rewrite (get_lookup _ _ _ _ Hnd Hi). f_equal. apply IH.
  intros x Hx. apply Hsub. by right.
Qed.

(** The object rules on children that return: the result holds the
    selected properties and nothing else. *)
Lemma object_rule_returns inc (ps : list (string * Descriptor)) n hs vs w :
  Obj.own_order ps.*1 →
  Forall2 (λ c v, returns c n v) hs vs →
  length hs = length ps →
  forEach (assign_body inc ps.*1 n) hs 0%nat [] w
  = (Ok (selected inc 0 ps.*1 vs), w).
Proof.
  intros Hord Hret Hlen.
  rewrite (forEach_selected inc ps.*1 n hs vs Hret 0%nat [] w); try done.
  by rewrite length_fmap, Hlen.
Qed.

(** C4. For a required-fields descriptor whose properties are those of an
    object, and child generators that return at seed [n], the interface
    rule has one child per declared property, returns an object, the own
    properties of that object are the declared ones in the declared order,
    and each holds what the generator of that property returns at [n]. *)
Theorem fuzzInterface_spec (b : Descriptor) (n : Z) hs vs w :
  Obj.own_order (Obj.getOwnPropertyNames (props b)) →
  Forall2 (λ c v, returns c n v) hs vs →
  length hs = length (props b) →
  children (fuzzInterface (World:=World) b) = (props b).*2
  ∧ ∃ o, func (fuzzInterface b) n hs w = (Ok (VObj o), w)
      ∧ Obj.getOwnPropertyNames o = Obj.getOwnPropertyNames (props b)
      ∧ ∀ i k c, Obj.getOwnPropertyNames (props b) !! i = Some k →
          hs !! i = Some c →
          ∃ v, Obj.get k o = Some v ∧ returns c n v.
Proof.
  unfold Obj.getOwnPropertyNames. intros Hord Hret Hlen.
  pose proof (own_order_NoDup _ Hord) as Hnd. split.
  { by apply children_of_props. }
  exists (zip (props b).*1 vs). split_and!.
  - simpl. unfold mbind, M_bind, Obj.getOwnPropertyNames.
    change (forEach _ hs 0%nat [] w)
      with (forEach (assign_body (λ _, true) (props b).*1 n) hs 0%nat [] w).
    rewrite (object_rule_returns _ _ _ _ vs) by done.
    by rewrite selected_all.
  - apply fst_zip. rewrite length_fmap, <- Hlen.
    by rewrite (Forall2_length _ _ _ Hret).
  - intros i k c Hk Hc.
    destruct (Forall2_lookup_l _ _ _ _ _ Hret Hc) as (v & Hv & Hcv).
    exists v. split; [|done].
    rewrite <- (selected_all (λ _, true) _ 0%nat) by done.
    by rewrite (get_selected _ _ _ _ i k v).
Qed.

(** C2, as the code has it. For an optional-fields descriptor whose
    properties are those of an object, and child generators that return at
    seed [n], the partial rule returns an object in which the property at
    position [i] is present exactly when [i < 32] and bit [i] of [n] (in
    two's complement) is set; a present property holds what its own
    generator returns at [n], and an absent one is no own property at
    all. *)
Theorem fuzzPartial_spec (b : Descriptor) (n : Z) hs vs w :
  Obj.own_order (Obj.getOwnPropertyNames (props b)) →
  Forall2 (λ c v, returns c n v) hs vs →
  length hs = length (props b) →
  children (fuzzPartial (World:=World) b) = (props b).*2
  ∧ ∃ o, func (fuzzPartial b) n hs w = (Ok (VObj o), w)
      ∧ ∀ i k c, Obj.getOwnPropertyNames (props b) !! i = Some k →
          hs !! i = Some c →
          (k ∈ Obj.getOwnPropertyNames o
             ↔ (i < 32)%nat ∧ Z.testbit n (Z.of_nat i) = true)
          ∧ (k ∉ Obj.getOwnPropertyNames o → Obj.get k o = None)
          ∧ (k ∈ Obj.getOwnPropertyNames o →
             ∃ v, Obj.get k o = Some v ∧ returns c n v).
Proof.
  unfold Obj.getOwnPropertyNames. intros Hord Hret Hlen.
  pose proof (own_order_NoDup _ Hord) as Hnd. split.
  { by apply children_of_props. }
  set (inc := λ i, Number.truthy (Number.band n (Number.pow2 i))).
  exists (selected inc 0 (props b).*1 vs). split.
  - simpl. unfold mbind, M_bind, Obj.getOwnPropertyNames.
    change (forEach _ hs 0%nat [] w)
      with (forEach (assign_body inc (props b).*1 n) hs 0%nat [] w).
    by rewrite (object_rule_returns _ _ _ _ vs).
  - intros i k c Hk Hc.
    destruct (Forall2_lookup_l _ _ _ _ _ Hret Hc) as (v & Hv & Hcv).
    pose proof (get_selected inc _ 0%nat vs i k v Hnd Hk Hv) as Hget.
    simpl in Hget. pose proof (included_spec n i) as Hinc. fold (inc i) in Hinc.
    split_and!.
    + rewrite <- Hinc. destruct (inc i).
      * split; [done|]. intros _.
        destruct (decide (k ∈ (selected inc 0 (props b).*1 vs).*1)) as [|Hn];
          [done|]. apply get_None in Hn. congruence.
      * split; [|done]. intros Hin. exfalso. revert Hin.
        by apply get_None.
    + apply get_None.
    + intros Hin. exists v. split; [|done].
      destruct (inc i); [done|]. exfalso. revert Hin. by apply get_None.
Qed.

(** C9. The test of the partial rule is the 32-bit [&] of the seed with
    [2 ** i], which is zero from position 32 on; so whatever the seed and
    whatever the children do, an object the rule returns has no property
    for a position [i >= 32]. *)
Theorem fuzzPartial_beyond_32 (b : Descriptor) (n : Z) hs w r w' :
  Obj.own_order (Obj.getOwnPropertyNames (props b)) →
  func (fuzzPartial b) n hs w = (Ok r, w') →
  (∀ i, (32 ≤ i)%nat → Number.band n (Number.pow2 i) = 0)
  ∧ ∃ o, r = VObj o
      ∧ ∀ i k, (32 ≤ i)%nat →
          Obj.getOwnPropertyNames (props b) !! i = Some k →
          (k ∉ Obj.getOwnPropertyNames o) ∧ Obj.get k o = None.
Proof.
  unfold Obj.getOwnPropertyNames. intros Hord Hrun.
  pose proof (own_order_NoDup _ Hord) as Hnd. split.
  { intros i Hi. unfold Number.band. by rewrite pow2_high, Z.land_0_r. }
  set (inc := λ i, Number.truthy (Number.band n (Number.pow2 i))).
  simpl in Hrun. unfold mbind, M_bind, Obj.getOwnPropertyNames in Hrun.
  change (forEach _ hs 0%nat [] w)
    with (forEach (assign_body inc (props b).*1 n) hs 0%nat [] w) in Hrun.
  destruct (forEach _ hs 0%nat [] w) as [[o|e] w1] eqn:Hloop; [|done].
  unfold mret, M_ret in Hrun. simplify_eq. exists o. split; [done|].
  intros i k Hi Hk.
  assert (k ∉ o.*1) as Hout; [|split; [done|by apply get_None]].
  intros Hin.
  destruct (forEach_keys _ _ _ _ _ _ _ _ _ Hloop k Hin)
    as [Hnil|(j & _ & Hj & Hkj)].
  - by apply elem_of_nil in Hnil.
  - apply included_spec in Hj as [Hj _].
    assert ((props b).*1 !! j = Some k) as Hk'.
    { destruct (lookup_lt_is_Some_2 (props b).*1 j) as [k' Hk'].
      - apply lookup_lt_Some in Hk. lia.
      - by rewrite <- Hkj, (key_at_lookup _ _ _ Hk'). }
    pose proof (NoDup_lookup _ _ _ _ Hnd Hk Hk'). lia.
Qed.

Lemma fuzzUnion_nonneg (b : Descriptor) (n : Z) hs c w :
  0 ≤ n →
  hs !! Z.to_nat (n mod Z.of_nat (length hs)) = Some c →
  func (fuzzUnion b) n hs w = encode c n w.
Proof.
  intros Hn Hc. simpl. unfold Number.rem.
  assert (length hs ≠ 0%nat) as Hlen by (by destruct hs).
  rewrite decide_False by lia. simpl. unfold at_index.
  rewrite Z.rem_mod_nonneg by lia.
  rewrite decide_True by (apply Z.mod_pos_bound; lia).
  by rewrite Hc.
Qed.

(** C10. For a union of at least two branches and a negative seed that is
    no multiple of the number of branches, the remainder the union rule
    computes is negative, no branch stands at that index, and the rule
    throws without calling any branch. *)
Theorem fuzzUnion_negative_seed (b : Descriptor) (n : Z) hs w :
  length hs = length (types b) →
  (2 ≤ length (types b))%nat →
  n < 0 →
  Z.rem n (Z.of_nat (length (types b))) ≠ 0 →
  (∃ r, Number.rem n (Z.of_nat (length hs)) = Some r
        ∧ r < 0 ∧ at_index hs r = None)
  ∧ func (fuzzUnion b) n hs w = (Throw TypeError, w).
Proof.
  intros Hlen Hb Hn Hrem. rewrite <- Hlen in *.
  assert (Z.rem n (Z.of_nat (length hs)) < 0) as Hneg.
  { pose proof (Z.rem_bound_pos_neg n (Z.of_nat (length hs))
                  ltac:(lia) ltac:(lia)). lia. }
  split.
  - exists (Z.rem n (Z.of_nat (length hs))). unfold Number.rem, at_index.
    rewrite !decide_False by lia. done.
  - simpl. unfold Number.rem. rewrite decide_False by lia. simpl.
    unfold at_index. by rewrite decide_False by lia.
Qed.

End RuleFacts.

(** ** Facts about the registry *)

Section RegistryFacts.
Context {World : Type}.
Implicit Types (m : gmap (string + string) (Fuzzer World))
               (h : gmap positive (gmap (string + string) (Fuzzer World))).

Lemma lookup_rule_Some m d f :
  lookup_rule m d = Some f → ∃ k, m !! k = Some f.
Proof.
  unfold lookup_rule. destruct (name d) as [x|]; simpl.
  - destruct (m !! inr x) as [f'|] eqn:E; [intros [= <-]|]; eauto.
  - eauto.
Qed.

Lemma lookup_rule_insert m d f :
  resolves_under m d f → lookup_rule (<[key_of f := f]> m) d = Some f.
Proof.
  unfold resolves_under, lookup_rule, key_of.
  destruct (idType f).
  - intros [<- Hname]. destruct (name d) as [x|]; simpl in *.
    + rewrite lookup_insert_ne by done. rewrite Hname.
      by rewrite lookup_insert_eq.
    + by rewrite lookup_insert_eq.
  - intros ->. simpl. by rewrite lookup_insert_eq.
Qed.

Lemma resolves_under_insert m d (A B : Fuzzer World) :
  key_of A = key_of B →
  resolves_under m d B → resolves_under (<[key_of A := A]> m) d B.
Proof.
  unfold resolves_under, key_of. intros Hkey.
  destruct (idType B); [|done]. intros [? Hname]. split; [done|].
  destruct (name d) as [x|]; [|done]. simpl in *.
  rewrite Hkey. by rewrite lookup_insert_ne.
Qed.

Lemma register_lookup r defs h m :
  h !! r = Some m →
  (register r defs h).2 !! r
  = Some (foldl (λ m f, <[key_of f := f]> m) m defs).
Proof. intros Hr. simpl. by rewrite lookup_alter_eq, Hr. Qed.

(** C6. Registering [A] and then [B] under one id makes a lookup that
    arrives at that id return [B]; one call with both and two calls in a
    row leave the same heap; and [register] returns the registry it was
    called on. *)
Theorem register_last_wins h r m (A B : Fuzzer World) d :
  h !! r = Some m →
  key_of A = key_of B →
  resolves_under m d B →
  let batched := register r [A; B] h in
  let chained := let '(r1, h1) := register r [A] h in register r1 [B] h1 in
  batched.1 = r ∧ chained.1 = r
  ∧ getFuzzer r d batched.2 = Some B
  ∧ getFuzzer r d chained.2 = Some B
  ∧ batched.2 = chained.2.
Proof.
  intros Hr Hkey Hres. simpl.
  assert (alter (λ m0, <[key_of B:=B]> (<[key_of A:=A]> m0)) r h
          = alter (λ m0, <[key_of B:=B]> m0)
              r (alter (λ m0, <[key_of A:=A]> m0) r h)) as Heq.
  { by rewrite alter_alter_eq. }
  rewrite <- Heq. split_and!; try done.
  all: unfold getFuzzer; rewrite lookup_alter_eq, Hr; simpl.
  all: by apply lookup_rule_insert, resolves_under_insert.
Qed.

(** *** Purity *)

Lemma at_index_elem_of {A : Type} (l : list A) i x :
  at_index l i = Some x → x ∈ l.
Proof.
  unfold at_index. case_decide; [|done]. apply list_elem_of_lookup_2.
Qed.

Lemma of_seed_pure {A : Type} `{ToValue A} (f : Z → A) :
  pure_func (World:=World) (of_seed f).
Proof. intros hs _ n. by exists (Ok (to_value (f n))). Qed.

Lemma fuzzUnion_pure b : pure_func (World:=World) (func (fuzzUnion b)).
Proof.
  intros hs Hhs n. simpl.
  destruct (Number.rem n (Z.of_nat (length hs)) ≫= at_index hs)
    as [c|] eqn:E.
  - apply bind_Some in E as (r & _ & Hc).
    apply at_index_elem_of in Hc. rewrite Forall_forall in Hhs.
    apply (Hhs c Hc).
  - by exists (Throw TypeError).
Qed.

Lemma forEach_pure inc keys n (hs : list (Encoder World)) :
  Forall pure_encoder hs →
  ∀ i acc, ∃ out, ∀ w, forEach (assign_body inc keys n) hs i acc w = (out, w).
Proof.
  induction 1 as [|c hs Hc _ IH]; intros i acc.
  - exists (Ok acc). intros w. reflexivity.
  - simpl. unfold mbind, M_bind, assign_body at 1.
    destruct (inc i).
    + destruct (Hc n) as [[x|e] Hx].
      * destruct (IH (S i) (Obj.set (key_at keys i) x acc)) as [out Hout].
        exists out. intros w. unfold mbind, M_bind. rewrite Hx.
        apply Hout.
      * exists (Throw e). intros w. unfold mbind, M_bind. by rewrite Hx.
    + destruct (IH (S i) acc) as [out Hout]. exists out. intros w.
      unfold mret, M_ret. apply Hout.
Qed.

Lemma fuzzInterface_pure b : pure_func (World:=World) (func (fuzzInterface b)).
Proof.
  intros hs Hhs n. simpl.
  destruct (forEach_pure (λ _, true) (Obj.getOwnPropertyNames (props b)) n
              hs Hhs 0%nat []) as [[o|e] Ho].
  - exists (Ok (VObj o)). intros w. unfold mbind, M_bind.
    change (forEach _ hs 0%nat [] w)
      with (forEach (assign_body (λ _, true)
              (Obj.getOwnPropertyNames (props b)) n) hs 0%nat [] w).
    by rewrite Ho.
  - exists (Throw e). intros w. unfold mbind, M_bind.
    change (forEach _ hs 0%nat [] w)
      with (forEach (assign_body (λ _, true)
              (Obj.getOwnPropertyNames (props b)) n) hs 0%nat [] w).
    by rewrite Ho.
Qed.

Lemma fuzzPartial_pure b : pure_func (World:=World) (func (fuzzPartial b)).
Proof.
  intros hs Hhs n. simpl.
  set (inc := λ i, Number.truthy (Number.band n (Number.pow2 i))).
  destruct (forEach_pure inc (Obj.getOwnPropertyNames (props b)) n
              hs Hhs 0%nat []) as [[o|e] Ho].
  - exists (Ok (VObj o)). intros w. unfold mbind, M_bind.
    change (forEach _ hs 0%nat [] w)
      with (forEach (assign_body inc
              (Obj.getOwnPropertyNames (props b)) n) hs 0%nat [] w).
    by rewrite Ho.
  - exists (Throw e). intros w. unfold mbind, M_bind.
    change (forEach _ hs 0%nat [] w)
      with (forEach (assign_body inc
              (Obj.getOwnPropertyNames (props b)) n) hs 0%nat [] w).
    by rewrite Ho.
Qed.

Lemma coreFuzzers_pure : Forall (pure_rule (World:=World)) coreFuzzers.
Proof.
  repeat apply Forall_cons_2; try apply Forall_nil_2; unfold pure_rule; simpl.
  - apply of_seed_pure.
  - apply of_seed_pure.
  - apply of_seed_pure.
  - apply fuzzUnion_pure.
  - apply fuzzInterface_pure.
  - apply fuzzPartial_pure.
Qed.

Lemma register_all_pure defs m :
  Forall pure_rule defs →
  (∀ k f, m !! k = Some f → pure_rule f) →
  ∀ k f, foldl (λ m f, <[key_of f := f]> m) m defs !! k = Some f →
         pure_rule f.
Proof.
  intros Hdefs. revert m. induction Hdefs as [|g defs Hg _ IH];
    intros m Hm k f; simpl; [by apply Hm|].
  apply IH. intros k' f'. rewrite lookup_insert.
  case_decide; [by intros [= <-]|by apply Hm].
Qed.

Lemma compose_all_Forall (P : Encoder World → Prop) f ds hs :
  (∀ d c, f d = Some (Ok c) → P c) →
  compose_all f ds = Some (Ok hs) → Forall P hs.
Proof.
  intros Hf. revert hs. induction ds as [|d ds IH]; intros hs; simpl.
  - intros [= <-]. constructor.
  - destruct (f d) as [[c|e]|] eqn:E; [|done..].
    destruct (compose_all f ds) as [[cs|e]|]; [|done..].
    intros [= <-]. constructor; [by eapply Hf|by apply IH].
Qed.

Lemma compose_pure m :
  (∀ k f, m !! k = Some f → pure_rule f) →
  ∀ fuel d g, compose fuel m d = Some (Ok g) → pure_encoder g.
Proof.
  intros Hm. induction fuel as [|fuel IH]; intros d g; simpl; [done|].
  destruct (lookup_rule m d) as [f|] eqn:Hf; [|done].
  apply lookup_rule_Some in Hf as [k Hk]. apply Hm in Hk.
  unfold pure_rule in Hk. destruct (impl f) as [fn|gn].
  - intros [= <-]. intros n. apply (Hk [] (Forall_nil_2 _) n).
  - destruct (compose_all (compose fuel m) (children (gn d)))
      as [[hs|e]|] eqn:E; [|done..].
    intros [= <-]. intros n. simpl.
    apply (Hk d hs).
    eapply compose_all_Forall; [|done]. apply IH.
Qed.

(** C8. In a registry whose definitions are pure, a generator composed for
    a descriptor has, for each seed and context, one outcome: [encode]
    yields it in every world and leaves the world as it was, so a second
    call, run after the first, yields the same. *)
Theorem encode_deterministic h r m fuel d g (s : Z) (c : GenerationContext) :
  h !! r = Some m →
  (∀ k f, m !! k = Some f → pure_rule f) →
  exampleGenerator fuel r d h = Some (Ok g) →
  (∃ out, ∀ w, generate g s c w = (out, w))
  ∧ ∀ w, let first := generate g s c w in
         let second := generate g s c first.2 in
         second.1 = first.1 ∧ second.2 = w.
Proof.
  intros Hr Hm Hg. unfold exampleGenerator in Hg. rewrite Hr in Hg.
  simpl in Hg. destruct (compose_pure m Hm fuel d g Hg s) as [out Hout].
  unfold generate. split; [by exists out|].
  intros w. simpl. by rewrite !Hout.
Qed.

(** *** The rules of core.ts in a registry *)

Lemma core_rules_pure k (f : Fuzzer World) :
  core_rules !! k = Some f → pure_rule f.
Proof.
  apply register_all_pure; [apply coreFuzzers_pure|].
  intros k' f'. by rewrite lookup_empty.
Qed.

End RegistryFacts.

(** ** The rules at concrete inputs

    The world plays no part below and is the one-element type. *)

Lemma props33_own_order : Obj.own_order (Obj.getOwnPropertyNames props33).
Proof. apply (bool_decide_unpack _). vm_compute. exact I. Qed.

(** C3, at the input where the code departs from it. For the union of
    [number] and [string], seed [4] selects branch [4 % 2 = 0] and yields the
    number [4]; seed [-1] gives the index [-1 % 2 = -1], at which the array of
    branches has nothing, and the rule throws instead of returning the value
    of branch [1]. The generator composed for that union from the rules of
    core.ts behaves the same. *)
Theorem fuzzUnion_seed_minus_one :
  let b := exampleUnion in
  let h := exampleUnionChildren in
  func (fuzzUnion b) 4 h tt = (Ok (VNum 4), tt)
  ∧ Number.rem (-1) 2 = Some (-1)
  ∧ at_index h (-1) = None
  ∧ func (fuzzUnion b) (-1) h tt = (Throw TypeError, tt)
  ∧ ∃ g, compose 2 core_rules b = Some (Ok g)
         ∧ encode g 4 tt = (Ok (VNum 4), tt)
         ∧ encode g (-1) tt = (Throw TypeError, tt).
Proof.
  simpl. split_and!; try reflexivity.
  eexists. split_and!; reflexivity.
Qed.



Lemma fuzzUnion_negative_seed_witness :
  (∃ r, Number.rem (-1) (Z.of_nat (length exampleUnionChildren))
        = Some r
        ∧ r < 0 ∧ at_index exampleUnionChildren r = None)
  ∧ func (fuzzUnion exampleUnion) (-1) exampleUnionChildren tt
    = (Throw TypeError, tt).
Proof.
  apply (fuzzUnion_negative_seed exampleUnion (-1) exampleUnionChildren tt);
    [reflexivity|simpl; lia|lia|vm_compute; discriminate].
Defined.

Lemma fuzzInterface_spec_witness :
  children (fuzzInterface (World:=unit) exampleType) = (props exampleType).*2
  ∧ ∃ o, func (fuzzInterface exampleType) 5 exampleTypeChildren tt
         = (Ok (VObj o), tt)
      ∧ Obj.getOwnPropertyNames o = Obj.getOwnPropertyNames (props exampleType)
      ∧ ∀ i k c, Obj.getOwnPropertyNames (props exampleType) !! i = Some k →
          exampleTypeChildren !! i = Some c →
          ∃ v, Obj.get k o = Some v ∧ returns c 5 v.
Proof.
  apply (fuzzInterface_spec exampleType 5 exampleTypeChildren
           [VNum 5; VBool false] tt).
  - apply (bool_decide_unpack _). vm_compute. exact I.
  - repeat constructor.
  - reflexivity.
Defined.

(** C2, as stated, fails. For the partial type of the 33 properties [p0],
    ..., [p32] and the seed [2 ^ 32], bit 32 of the seed is set and yet the
    object the rule returns has no property [p32]. *)
Lemma fuzzPartial_bit_32_excluded :
  Obj.getOwnPropertyNames (props (t.partial props33)) !! 32%nat = Some "p32"
  ∧ Z.testbit (2 ^ 32) 32 = true
  ∧ ∃ o, func (fuzzPartial (World:=unit) (t.partial props33)) (2 ^ 32)
           (replicate 33 numberEncoder) tt = (Ok (VObj o), tt)
      ∧ "p32" ∉ Obj.getOwnPropertyNames o.
Proof.
  split_and!; [vm_compute; reflexivity..|].
  exists []. split; [vm_compute; reflexivity|apply not_elem_of_nil].
Qed.

Lemma fuzzPartial_spec_witness :
  children (fuzzPartial (World:=unit) examplePartial)
  = (props examplePartial).*2
  ∧ ∃ o, func (fuzzPartial examplePartial) 2 examplePartialChildren tt = (Ok (VObj o), tt)
      ∧ ∀ i k c,
          Obj.getOwnPropertyNames (props examplePartial) !! i = Some k →
          examplePartialChildren !! i = Some c →
          (k ∈ Obj.getOwnPropertyNames o
             ↔ (i < 32)%nat ∧ Z.testbit 2 (Z.of_nat i) = true)
          ∧ (k ∉ Obj.getOwnPropertyNames o → Obj.get k o = None)
          ∧ (k ∈ Obj.getOwnPropertyNames o →
             ∃ v, Obj.get k o = Some v ∧ returns c 2 v).
Proof.
  apply (fuzzPartial_spec examplePartial 2 examplePartialChildren
           [VNum 2; VStr "2"] tt).
  - apply (bool_decide_unpack _). vm_compute. exact I.
  - repeat constructor.
  - reflexivity.
Defined.

Lemma fuzzPartial_beyond_32_witness :
  (∀ i, (32 ≤ i)%nat → Number.band (-1) (Number.pow2 i) = 0)
  ∧ ∃ o, VObj ((λ i : nat, ("p" +:+ pretty i, VNum (-1))) <$> seq 0 32)
         = VObj o
      ∧ ∀ i k, (32 ≤ i)%nat →
          Obj.getOwnPropertyNames (props (t.partial props33)) !! i = Some k →
          (k ∉ Obj.getOwnPropertyNames o) ∧ Obj.get k o = None.
Proof.
  apply (fuzzPartial_beyond_32 (World:=unit) (t.partial props33) (-1)
           (replicate 33 numberEncoder) tt _ tt).
  - apply (bool_decide_unpack _). vm_compute. exact I.
  - vm_compute. reflexivity.
Defined.

Lemma register_last_wins_witness :
  let h : gmap positive (gmap (string + string) (Fuzzer unit)) :=
    (createRegistry ∅).2 in
  let r := (createRegistry (World:=unit) ∅).1 in
  let batched := register r [fuzzStr1; fuzzStr2] h in
  let chained :=
    let '(r1, h1) := register r [fuzzStr1] h in register r1 [fuzzStr2] h1 in
  batched.1 = r ∧ chained.1 = r
  ∧ getFuzzer r t.string batched.2 = Some fuzzStr2
  ∧ getFuzzer r t.string chained.2 = Some fuzzStr2
  ∧ batched.2 = chained.2.
Proof.
  apply (register_last_wins (World:=unit) _ _ ∅ fuzzStr1 fuzzStr2 t.string).
  - vm_compute. reflexivity.
  - reflexivity.
  - vm_compute. split; reflexivity.
Defined.

Lemma encode_deterministic_witness :
  (∃ out, ∀ w,
      generate {| encode := λ n, func (fuzzInterface exampleType) n
                                   exampleTypeChildren |}
        5 (fuzzContext 10) w = (out, w))
  ∧ ∀ w,
      let first :=
        generate {| encode := λ n, func (fuzzInterface exampleType) n
                                     exampleTypeChildren |}
          5 (fuzzContext 10) w in
      let second :=
        generate {| encode := λ n, func (fuzzInterface exampleType) n
                                     exampleTypeChildren |}
          5 (fuzzContext 10) first.2 in
      second.1 = first.1 ∧ second.2 = w.
Proof.
  apply (encode_deterministic
           (register (createRegistry (World:=unit) ∅).1 coreFuzzers
              (createRegistry ∅).2).2
           (createRegistry (World:=unit) ∅).1 core_rules 2 exampleType).
  - reflexivity.
  - apply core_rules_pure.
  - vm_compute. reflexivity.
Defined.

(** ** Further facts about the leaf rules *)

Lemma fuzzBoolean_even n : fuzzBoolean n = Z.even n.
Proof.
  unfold fuzzBoolean, Number.rem. rewrite decide_False by lia.
  destruct (Z.even n) eqn:E.
  - apply bool_decide_eq_true, rem_2_even, Z.even_spec. done.
  - apply bool_decide_eq_false. intros H%rem_2_even%Z.even_spec. congruence.
Qed.

(** X1. The boolean rule treats a seed and its negation alike, so negative
    odd seeds, whose remainder is [-1], give false as the positive ones do;
    and consecutive seeds give opposite booleans. *)
Theorem fuzzBoolean_alternates (n : Z) :
  fuzzBoolean (- n) = fuzzBoolean n
  ∧ fuzzBoolean (n + 1) = negb (fuzzBoolean n).
Proof.
  rewrite !fuzzBoolean_even, Z.even_opp, Z.add_1_r, Z.even_succ.
  by rewrite <- Z.negb_even.
Qed.

(** X2. On safe integers, where it prints every digit, the string rule
    maps different seeds to different strings. *)
Theorem fuzzString_inj (n m : Z) :
  Number.isSafeInteger n = true → Number.isSafeInteger m = true →
  n ≠ m → fuzzString n ≠ fuzzString m.
Proof.
  intros Hn Hm Hne Heq. apply Hne. unfold fuzzString in Heq.
  rewrite !toString_pretty in Heq by done. by apply (inj pretty).
Qed.

(** ** Further facts about the composite rules *)

Section FurtherRuleFacts.
Context {World : Type}.
Implicit Types (hs : list (Encoder World)) (vs : list value) (w : World).

(** X3. A union without branches has nothing to select: [n % 0] is [NaN],
    the read at that index is [undefined], and the rule throws a
    [TypeError] for every seed. *)
Theorem fuzzUnion_no_branches (b : Descriptor) (n : Z) w :
  Number.rem n 0 = None
  ∧ func (fuzzUnion b) n [] w = (Throw TypeError, w).
Proof. split; reflexivity. Qed.

(** X4. For a seed [n >= 0] and at least one branch, the union rule is the
    call [encode(n)] on the branch at index [n mod b] and nothing else: same
    outcome, thrown errors included, and same effect on the world. *)
Theorem fuzzUnion_selects (b : Descriptor) (n : Z) hs w :
  0 ≤ n → hs ≠ [] →
  ∃ c, hs !! Z.to_nat (n mod Z.of_nat (length hs)) = Some c
       ∧ func (fuzzUnion b) n hs w = encode c n w.
Proof.
  intros Hn Hhs.
  assert (length hs ≠ 0%nat) as Hlen by (by destruct hs).
  destruct (lookup_lt_is_Some_2 hs (Z.to_nat (n mod Z.of_nat (length hs))))
    as [c Hc].
  { pose proof (Z.mod_pos_bound n (Z.of_nat (length hs)) ltac:(lia)). lia. }
  exists c. split; [done|]. by apply fuzzUnion_nonneg.
Qed.

(** X5. Every branch of a union is reached: the seed [i] selects the branch
    at index [i], for each index [i] of the branches. *)
Theorem fuzzUnion_reaches_every_branch (b : Descriptor) (i : nat) hs c w :
  hs !! i = Some c →
  func (fuzzUnion b) (Z.of_nat i) hs w = encode c (Z.of_nat i) w.
Proof.
  intros Hc. apply fuzzUnion_nonneg; [lia|].
  apply lookup_lt_Some in Hc as Hlt.
  rewrite Z.mod_small by lia. by rewrite Nat2Z.id.
Qed.

(** X6. A seed that is a multiple of the number of branches, negative ones
    included, selects the first branch: the remainder [-0] reads index 0. *)
Theorem fuzzUnion_multiple_selects_first (b : Descriptor) (n : Z) hs w :
  hs ≠ [] → Z.rem n (Z.of_nat (length hs)) = 0 →
  ∃ c, hs !! 0%nat = Some c ∧ func (fuzzUnion b) n hs w = encode c n w.
Proof.
  intros Hhs Hrem. destruct hs as [|c hs]; [done|]. exists c. split; [done|].
  unfold fuzzUnion. cbn [func]. unfold Number.rem.
  rewrite decide_False by (simpl; lia). rewrite Hrem. reflexivity.
Qed.

(** *** The loop of the object rules, with children that have effects *)

Lemma forEach_app {A St : Type} (f : St → A → nat → M World St) l1 l2 :
  ∀ i s w,
    forEach f (l1 ++ l2) i s w
    = match forEach f l1 i s w with
      | (Ok s', w') => forEach f l2 (i + length l1)%nat s' w'
      | (Throw e, w') => (Throw e, w')
      end.
Proof.
  induction l1 as [|x l1 IH]; intros i s w; simpl.
  - unfold mret, M_ret. by rewrite Nat.add_0_r.
  - unfold mbind, M_bind. destruct (f s x i w) as [[s'|e] w']; [|done].
    rewrite IH. by replace (S i + length l1)%nat with (i + S (length l1))%nat
      by lia.
Qed.

Lemma forEach_excluded inc keys n hs :
  ∀ i acc w,
    (∀ j, (j < length hs)%nat → inc (i + j)%nat = false) →
    forEach (assign_body inc keys n) hs i acc w = (Ok acc, w).
Proof.
  induction hs as [|c hs IH]; intros i acc w Hinc; [done|].
  simpl. unfold mbind, M_bind, assign_body at 1.
  pose proof (Hinc 0%nat ltac:(simpl; lia)) as H0.
  rewrite Nat.add_0_r in H0. rewrite H0. unfold mret, M_ret.
  apply IH. intros j Hj.
  replace (S i + j)%nat with (i + S j)%nat by lia. apply Hinc. simpl. lia.
Qed.

Lemma forEach_same_included inc keys n :
  ∀ hs hs' i acc w,
    length hs = length hs' →
    (∀ j, inc (i + j)%nat = true → hs !! j = hs' !! j) →
    forEach (assign_body inc keys n) hs i acc w
    = forEach (assign_body inc keys n) hs' i acc w.
Proof.
  induction hs as [|c hs IH]; intros [|c' hs'] i acc w Hlen Hsame; try done.
  simpl in Hlen. simpl. unfold mbind, M_bind, assign_body at 1 3.
  assert (∀ acc' w', forEach (assign_body inc keys n) hs (S i) acc' w'
                     = forEach (assign_body inc keys n) hs' (S i) acc' w')
    as Hrest.
  { intros acc' w'. apply IH; [lia|]. intros j Hj.
    apply (Hsame (S j)). by replace (i + S j)%nat with (S i + j)%nat by lia. }
  destruct (inc i) eqn:Hi.
  - pose proof (Hsame 0%nat) as H0. rewrite Nat.add_0_r in H0.
    specialize (H0 Hi). simpl in H0. simplify_eq.
    unfold mbind, M_bind. destruct (encode c' n w) as [[x|e] w1]; [|done].
    unfold mret, M_ret. apply Hrest.
  - unfold mret, M_ret. apply Hrest.
Qed.

Lemma forEach_same_test inc inc' keys n hs :
  ∀ i acc w,
    (∀ j, (j < length hs)%nat → inc (i + j)%nat = inc' (i + j)%nat) →
    forEach (assign_body inc keys n) hs i acc w
    = forEach (assign_body inc' keys n) hs i acc w.
Proof.
  induction hs as [|c hs IH]; intros i acc w Hsame; [done|].
  simpl. unfold mbind, M_bind, assign_body at 1 3.
  pose proof (Hsame 0%nat ltac:(simpl; lia)) as H0.
  rewrite Nat.add_0_r in H0. rewrite <- H0.
  assert (∀ acc' w', forEach (assign_body inc keys n) hs (S i) acc' w'
                     = forEach (assign_body inc' keys n) hs (S i) acc' w')
    as Hrest.
  { intros acc' w'. apply IH. intros j Hj.
    replace (S i + j)%nat with (i + S j)%nat by lia. apply Hsame. simpl. lia. }
  destruct (inc i).
  - unfold mbind, M_bind. destruct (encode c n w) as [[x|e] w1]; [|done].
    unfold mret, M_ret. apply Hrest.
  - unfold mret, M_ret. apply Hrest.
Qed.

Lemma forEach_run_all keys n hs vs w w' :
  run_all n hs w vs w' →
  ∀ i acc,
    Obj.own_order (acc.*1 ++ drop i keys) →
    (i + length hs ≤ length keys)%nat →
    forEach (assign_body (λ _, true) keys n) hs i acc w
    = (Ok (acc ++ zip (drop i keys) vs), w').
Proof.
  induction 1 as [w|c hs w v w1 vs w2 Hc _ IH]; intros i acc Hord Hlen.
  - simpl. unfold mret, M_ret. destruct (drop i keys); by rewrite app_nil_r.
  - simpl in Hlen.
    destruct (lookup_lt_is_Some_2 keys i ltac:(lia)) as [k Hk].
    rewrite (drop_S _ _ _ Hk) in *. simpl.
    unfold mbind, M_bind, assign_body at 1. unfold mbind, M_bind.
    rewrite Hc, (key_at_lookup _ _ _ Hk). unfold mret, M_ret.
    rewrite set_snoc.
    2:{ rewrite cons_middle, (assoc_L (++)) in Hord.
        by apply StronglySorted_app_1_l in Hord. }
    rewrite IH; [|by rewrite fmap_app, <- (assoc_L (++))|lia].
    by rewrite <- (assoc_L (++)).
Qed.

Lemma forEach_throws keys n hs1 c hs2 vs w w1 e w2 :
  run_all n hs1 w vs w1 →
  encode c n w1 = (Throw e, w2) →
  ∀ i acc,
    forEach (assign_body (λ _, true) keys n) (hs1 ++ c :: hs2) i acc w
    = (Throw e, w2).
Proof.
  induction 1 as [w|c0 hs w v w1 vs w3 Hc0 _ IH]; intros Hc i acc; simpl;
    unfold mbind, M_bind, assign_body at 1; unfold mbind, M_bind.
  - by rewrite Hc.
  - rewrite Hc0. unfold mret, M_ret. by apply IH.
Qed.

Lemma set_empty {A : Type} k (v : A) : Obj.set k v [] = [(k, v)].
Proof.
  unfold Obj.set. rewrite decide_False by apply not_elem_of_nil.
  by destruct (Obj.array_index k).
Qed.

Lemma included_false n i :
  ¬ ((i < 32)%nat ∧ Z.testbit n (Z.of_nat i) = true) →
  Number.truthy (Number.band n (Number.pow2 i)) = false.
Proof.
  intros Hnot. destruct (Number.truthy _) eqn:E; [|done].
  by apply included_spec in E.
Qed.

Lemma included_true n i :
  (i < 32)%nat → Z.testbit n (Z.of_nat i) = true →
  Number.truthy (Number.band n (Number.pow2 i)) = true.
Proof. intros. by apply included_spec. Qed.

Lemma ToInt32_period n k : Number.ToInt32 (n + k * 2 ^ 32) = Number.ToInt32 n.
Proof. unfold Number.ToInt32. by rewrite Z.mod_add by lia. Qed.

Lemma selected_names inc ks : ∀ i vs vs',
  length vs = length vs' →
  (selected inc i ks vs).*1 = (selected inc i ks vs').*1.
Proof.
  induction ks as [|k ks IH]; intros i [|v vs] [|v' vs'] Hlen; try done.
  simpl in *. rewrite !fmap_app. f_equal; [by destruct (inc i)|].
  apply IH. lia.
Qed.

Lemma selected_ext inc inc' ks : ∀ i vs,
  (∀ j, inc j = inc' j) → selected inc i ks vs = selected inc' i ks vs.
Proof.
  induction ks as [|k ks IH]; intros i [|v vs] Hext; try done.
  simpl. rewrite Hext. f_equal. by apply IH.
Qed.

Lemma selected_sublist inc ks : ∀ i vs,
  selected inc i ks vs `sublist_of` zip ks vs.
Proof.
  induction ks as [|k ks IH]; intros i [|v vs]; simpl; try done.
  destruct (inc i); simpl.
  - by apply sublist_skip.
  - by apply sublist_cons.
Qed.

(** X7. The interface rule calls its children from left to right, each
    once, every call starting in the world the one before left; when all
    return, the result pairs the declared keys, in order, with the values
    returned, and with fewer children than keys only the leading keys are
    set. *)
Theorem fuzzInterface_calls_in_order (b : Descriptor) (n : Z) hs vs w w' :
  Obj.own_order (Obj.getOwnPropertyNames (props b)) →
  (length hs ≤ length (props b))%nat →
  run_all n hs w vs w' →
  func (fuzzInterface b) n hs w
  = (Ok (VObj (zip (Obj.getOwnPropertyNames (props b)) vs)), w').
Proof.
  unfold Obj.getOwnPropertyNames. intros Hord Hlen Hrun.
  simpl. unfold mbind, M_bind, Obj.getOwnPropertyNames.
  change (forEach _ hs 0%nat [] w)
    with (forEach (assign_body (λ _, true) (props b).*1 n) hs 0%nat [] w).
  rewrite (forEach_run_all _ _ _ _ _ _ Hrun 0%nat []); [done|done|].
  by rewrite length_fmap.
Qed.

(** X8. The interface rule stops at the first child that throws: the error
    is the rule's outcome, the world is the one that child left, and the
    children after it are not called. *)
Theorem fuzzInterface_stops_at_first_error
    (b : Descriptor) (n : Z) hs1 c hs2 vs w w1 e w2 :
  run_all n hs1 w vs w1 →
  encode c n w1 = (Throw e, w2) →
  func (fuzzInterface b) n (hs1 ++ c :: hs2) w = (Throw e, w2).
Proof.
  intros Hrun Hc. simpl. unfold mbind, M_bind.
  change (forEach _ (hs1 ++ c :: hs2) 0%nat [] w)
    with (forEach (assign_body (λ _, true)
            (Obj.getOwnPropertyNames (props b)) n)
            (hs1 ++ c :: hs2) 0%nat [] w).
  by rewrite (forEach_throws _ _ _ _ _ _ _ _ _ _ Hrun Hc).
Qed.

(** X9. The partial rule never calls a child whose position fails the test:
    two lists of children that agree at every position [i < 32] whose bit is
    set in the seed give the same outcome and the same world, whatever the
    other children are. *)
Theorem fuzzPartial_ignores_excluded (b : Descriptor) (n : Z) hs hs' w :
  length hs = length hs' →
  (∀ i, (i < 32)%nat → Z.testbit n (Z.of_nat i) = true →
        hs !! i = hs' !! i) →
  func (fuzzPartial b) n hs w = func (fuzzPartial b) n hs' w.
Proof.
  intros Hlen Hsame. simpl. unfold mbind, M_bind.
  set (inc := λ i, Number.truthy (Number.band n (Number.pow2 i))).
  set (keys := Obj.getOwnPropertyNames (props b)).
  change (forEach _ hs 0%nat [] w)
    with (forEach (assign_body inc keys n) hs 0%nat [] w).
  change (forEach _ hs' 0%nat [] w)
    with (forEach (assign_body inc keys n) hs' 0%nat [] w).
  rewrite (forEach_same_included inc keys n hs hs'); [done|done|].
  intros j Hj. simpl in Hj. apply included_spec in Hj as [??]. by apply Hsame.
Qed.

(** X10. For a seed that is a multiple of [2 ^ 32], zero among them, the
    partial rule returns the empty object and calls no child, whatever the
    descriptor and the children. *)
Theorem fuzzPartial_multiple_of_2_32 (b : Descriptor) (n : Z) hs w :
  n mod 2 ^ 32 = 0 →
  func (fuzzPartial b) n hs w = (Ok (VObj []), w).
Proof.
  intros Hn. simpl. unfold mbind, M_bind.
  set (inc := λ i, Number.truthy (Number.band n (Number.pow2 i))).
  set (keys := Obj.getOwnPropertyNames (props b)).
  change (forEach _ hs 0%nat [] w)
    with (forEach (assign_body inc keys n) hs 0%nat [] w).
  rewrite forEach_excluded; [done|].
  intros j _. unfold inc, Number.band, Number.ToInt32 at 1.
  rewrite Hn. by rewrite decide_False by lia.
Qed.

(** X11. Only the 32-bit image of the seed decides which properties the
    partial rule includes: for children that return at both seeds, the
    results for [n] and for [n + k * 2 ^ 32] have the same own property
    names. *)
Theorem fuzzPartial_names_period (b : Descriptor) (n k : Z) hs vs vs' w :
  Obj.own_order (Obj.getOwnPropertyNames (props b)) →
  Forall2 (λ c v, returns c n v) hs vs →
  Forall2 (λ c v, returns c (n + k * 2 ^ 32) v) hs vs' →
  length hs = length (props b) →
  ∃ o o',
    func (fuzzPartial b) n hs w = (Ok (VObj o), w)
    ∧ func (fuzzPartial b) (n + k * 2 ^ 32) hs w = (Ok (VObj o'), w)
    ∧ Obj.getOwnPropertyNames o = Obj.getOwnPropertyNames o'.
Proof.
  unfold Obj.getOwnPropertyNames. intros Hord Hret Hret' Hlen.
  set (inc := λ i, Number.truthy (Number.band n (Number.pow2 i))).
  set (inc' := λ i, Number.truthy
                      (Number.band (n + k * 2 ^ 32) (Number.pow2 i))).
  exists (selected inc 0 (props b).*1 vs), (selected inc' 0 (props b).*1 vs').
  split_and!.
  - simpl. unfold mbind, M_bind, Obj.getOwnPropertyNames.
    change (forEach _ hs 0%nat [] w)
      with (forEach (assign_body inc (props b).*1 n) hs 0%nat [] w).
    by rewrite (object_rule_returns _ _ _ _ vs).
  - simpl. unfold mbind, M_bind, Obj.getOwnPropertyNames.
    change (forEach _ hs 0%nat [] w)
      with (forEach (assign_body inc' (props b).*1 (n + k * 2 ^ 32))
              hs 0%nat [] w).
    by rewrite (object_rule_returns _ _ _ _ vs').
  - rewrite (selected_ext inc' inc).
    + apply selected_names.
      by rewrite <- (Forall2_length _ _ _ Hret), <- (Forall2_length _ _ _ Hret').
    + intros j. unfold inc, inc', Number.band. by rewrite ToInt32_period.
Qed.

(** X12. For children that return, what the partial rule returns is part of
    what the interface rule returns at the same seed: the same properties
    with the same values, some left out, the order kept. *)
Theorem fuzzPartial_within_fuzzInterface (b : Descriptor) (n : Z) hs vs w :
  Obj.own_order (Obj.getOwnPropertyNames (props b)) →
  Forall2 (λ c v, returns c n v) hs vs →
  length hs = length (props b) →
  ∃ o o',
    func (fuzzPartial b) n hs w = (Ok (VObj o), w)
    ∧ func (fuzzInterface b) n hs w = (Ok (VObj o'), w)
    ∧ o `sublist_of` o'.
Proof.
  unfold Obj.getOwnPropertyNames. intros Hord Hret Hlen.
  set (inc := λ i, Number.truthy (Number.band n (Number.pow2 i))).
  exists (selected inc 0 (props b).*1 vs), (zip (props b).*1 vs).
  split_and!.
  - simpl. unfold mbind, M_bind, Obj.getOwnPropertyNames.
    change (forEach _ hs 0%nat [] w)
      with (forEach (assign_body inc (props b).*1 n) hs 0%nat [] w).
    by rewrite (object_rule_returns _ _ _ _ vs).
  - simpl. unfold mbind, M_bind, Obj.getOwnPropertyNames.
    change (forEach _ hs 0%nat [] w)
      with (forEach (assign_body (λ _, true) (props b).*1 n) hs 0%nat [] w).
    rewrite (object_rule_returns _ _ _ _ vs) by done.
    by rewrite selected_all.
  - apply selected_sublist.
Qed.

(** X13. When the seed has the bit of every position of the children set,
    which needs at most 32 children, the partial rule does exactly what the
    interface rule does, whatever the children do. *)
Theorem fuzzPartial_all_bits_is_fuzzInterface (b : Descriptor) (n : Z) hs w :
  (length hs ≤ 32)%nat →
  (∀ i, (i < length hs)%nat → Z.testbit n (Z.of_nat i) = true) →
  func (fuzzPartial b) n hs w = func (fuzzInterface b) n hs w.
Proof.
  intros Hlen Hbits. simpl. unfold mbind, M_bind.
  set (inc := λ i, Number.truthy (Number.band n (Number.pow2 i))).
  set (keys := Obj.getOwnPropertyNames (props b)).
  change (forEach _ hs 0%nat [] w)
    with (forEach (assign_body inc keys n) hs 0%nat [] w) at 1.
  change (forEach _ hs 0%nat [] w)
    with (forEach (assign_body (λ _, true) keys n) hs 0%nat [] w) at 2.
  rewrite (forEach_same_test inc (λ _, true)); [done|].
  intros j Hj. simpl. apply included_true; [lia|by apply Hbits].
Qed.

(** X14. The seed [2 ** i], for a position [i < 32], makes the partial rule
    call the child at position [i] and no other, and return the object with
    that one property. *)
Theorem fuzzPartial_single_property
    (b : Descriptor) (i : nat) hs k c v w w' :
  (i < 32)%nat →
  Obj.getOwnPropertyNames (props b) !! i = Some k →
  hs !! i = Some c →
  encode c (2 ^ Z.of_nat i) w = (Ok v, w') →
  func (fuzzPartial b) (2 ^ Z.of_nat i) hs w = (Ok (VObj [(k, v)]), w').
Proof.
  intros Hi Hk Hc Hv. simpl. unfold mbind, M_bind.
  set (n := 2 ^ Z.of_nat i) in *.
  set (inc := λ j, Number.truthy (Number.band n (Number.pow2 j))).
  set (keys := Obj.getOwnPropertyNames (props b)) in *.
  change (forEach _ hs 0%nat [] w)
    with (forEach (assign_body inc keys n) hs 0%nat [] w).
  assert (∀ j, j ≠ i → inc j = false) as Hother.
  { intros j Hj. apply included_false. intros [_ Hbit].
    unfold n in Hbit. rewrite Z.pow2_bits_false in Hbit by lia. done. }
  assert (inc i = true) as Hthis.
  { apply included_true; [done|]. apply Z.pow2_bits_true. lia. }
  rewrite <- (take_drop_middle hs i c Hc), forEach_app.
  apply lookup_lt_Some in Hc as Hlt.
  rewrite forEach_excluded.
  2:{ intros j Hj. rewrite length_take in Hj. apply Hother. lia. }
  rewrite length_take, Nat.min_l by lia. simpl.
  unfold mbind, M_bind, assign_body at 1. rewrite Hthis.
  unfold mbind, M_bind. rewrite Hv. unfold mret, M_ret.
  rewrite (key_at_lookup _ _ _ Hk), set_empty.
  rewrite forEach_excluded; [done|]. intros j _. apply Hother. lia.
Qed.

Lemma insert_index_names {A : Type} n k (v : A) o :
  (Obj.insert_index n k v o).*1 ≡ₚ k :: o.*1.
Proof.
  induction o as [|[k' v'] o IH]; [done|]. simpl.
  destruct (Obj.array_index k') as [n'|]; [case_decide|]; csimpl; try done.
  rewrite IH. apply Permutation_swap.
Qed.

Lemma set_NoDup {A : Type} k (v : A) o :
  NoDup o.*1 → NoDup (Obj.set k v o).*1.
Proof.
  intros Hnd. unfold Obj.set. case_decide as Hin.
  - by rewrite replace_keys.
  - destruct (Obj.array_index k) as [n|].
    + rewrite insert_index_names. by apply NoDup_cons.
    + rewrite fmap_app. simpl. apply NoDup_app. split_and!; [done| |].
      * intros x Hx ->%list_elem_of_singleton. done.
      * apply NoDup_singleton.
Qed.

Lemma forEach_NoDup inc keys n hs :
  ∀ i acc w r w',
    NoDup acc.*1 →
    forEach (assign_body inc keys n) hs i acc w = (Ok r, w') →
    NoDup r.*1.
Proof.
  induction hs as [|c hs IH]; intros i acc w r w' Hnd Hrun.
  - simpl in Hrun. unfold mret, M_ret in Hrun. by simplify_eq.
  - simpl in Hrun. unfold mbind, M_bind, assign_body at 1 in Hrun.
    destruct (inc i).
    + unfold mbind, M_bind in Hrun.
      destruct (encode c n w) as [[x|e] w1]; [|done].
      unfold mret, M_ret in Hrun. eapply IH; [|done]. by apply set_NoDup.
    + unfold mret, M_ret in Hrun. by eapply IH.
Qed.

(** X15. An object the partial rule returns never has more than 32
    properties, however many the descriptor declares and whatever the seed
    and the children are. *)
Theorem fuzzPartial_at_most_32 (b : Descriptor) (n : Z) hs w r w' :
  func (fuzzPartial b) n hs w = (Ok r, w') →
  ∃ o, r = VObj o ∧ (length o ≤ 32)%nat.
Proof.
  intros Hrun. simpl in Hrun. unfold mbind, M_bind in Hrun.
  set (inc := λ i, Number.truthy (Number.band n (Number.pow2 i))) in *.
  set (keys := Obj.getOwnPropertyNames (props b)) in *.
  change (forEach _ hs 0%nat [] w)
    with (forEach (assign_body inc keys n) hs 0%nat [] w) in Hrun.
  destruct (forEach _ hs 0%nat [] w) as [[o|e] w1] eqn:Hloop; [|done].
  unfold mret, M_ret in Hrun. simplify_eq. exists o. split; [done|].
  assert (o.*1 ⊆+ key_at keys <$> seq 0 32) as Hsub.
  { apply NoDup_submseteq.
    - eapply forEach_NoDup; [|done]. apply NoDup_nil_2.
    - intros k Hk.
      destruct (forEach_keys _ _ _ _ _ _ _ _ _ Hloop k Hk)
        as [Hnil|(j & _ & Hj & <-)].
      + by apply elem_of_nil in Hnil.
      + apply included_spec in Hj as [Hj _].
        apply list_elem_of_fmap. exists j. split; [done|].
        apply elem_of_seq. lia. }
  apply submseteq_length in Hsub.
  by rewrite !length_fmap, length_seq in Hsub.
Qed.

(** X16. The table [coreFuzzers] registers every rule by tag, under ids
    that are tags of [BasicType] and differ from one another, so no default
    rule replaces another when the table is registered. *)
Theorem coreFuzzers_ids :
  NoDup (id <$> coreFuzzers (World:=World))
  ∧ Forall (λ f, idType f = IdTag ∧ id f ∈ BasicType)
           (coreFuzzers (World:=World)).
Proof.
  split.
  - apply (bool_decide_unpack _). reflexivity.
  - repeat apply Forall_cons_2; try apply Forall_nil_2; (split; [done|]);
      apply list_elem_of_In; simpl; tauto.
Qed.

End FurtherRuleFacts.

(** ** The further facts at concrete inputs *)

Lemma fuzzString_inj_witness : fuzzString 12 ≠ fuzzString (-21).
Proof. apply (fuzzString_inj 12 (-21)); [reflexivity|reflexivity|lia]. Defined.

Lemma fuzzUnion_selects_witness :
  ∃ c, exampleUnionChildren
         !! Z.to_nat (5 mod Z.of_nat (length exampleUnionChildren)) = Some c
       ∧ func (fuzzUnion exampleUnion) 5 exampleUnionChildren tt
         = encode c 5 tt.
Proof.
  apply (fuzzUnion_selects exampleUnion 5 exampleUnionChildren tt);
    [lia|discriminate].
Defined.

Lemma fuzzUnion_reaches_every_branch_witness :
  func (fuzzUnion exampleUnion) (Z.of_nat 1) exampleUnionChildren tt
  = encode stringEncoder (Z.of_nat 1) tt.
Proof.
  apply (fuzzUnion_reaches_every_branch exampleUnion 1 exampleUnionChildren).
  reflexivity.
Defined.

Lemma fuzzUnion_multiple_selects_first_witness :
  ∃ c, exampleUnionChildren !! 0%nat = Some c
       ∧ func (fuzzUnion exampleUnion) (-4) exampleUnionChildren tt
         = encode c (-4) tt.
Proof.
  apply (fuzzUnion_multiple_selects_first exampleUnion (-4)
           exampleUnionChildren tt); [discriminate|reflexivity].
Defined.

Lemma fuzzInterface_calls_in_order_witness :
  func (fuzzInterface exampleType) 5 [tickEncoder; tickEncoder] 0%nat
  = (Ok (VObj (zip (Obj.getOwnPropertyNames (props exampleType))
                 [VNum 5; VNum 6])), 2%nat).
Proof.
  apply (fuzzInterface_calls_in_order exampleType 5
           [tickEncoder; tickEncoder] [VNum 5; VNum 6] 0%nat 2%nat).
  - apply (bool_decide_unpack _). vm_compute. exact I.
  - simpl. lia.
  - eapply run_all_cons; [reflexivity|].
    eapply run_all_cons; [reflexivity|]. apply run_all_nil.
Defined.

Lemma fuzzInterface_stops_at_first_error_witness :
  func (fuzzInterface exampleNested) (-1)
    ([numberEncoder] ++ exampleUnionEncoder :: [booleanEncoder]) tt
  = (Throw TypeError, tt).
Proof.
  apply (fuzzInterface_stops_at_first_error exampleNested (-1)
           [numberEncoder] exampleUnionEncoder [booleanEncoder]
           [VNum (-1)] tt tt TypeError tt).
  - eapply run_all_cons; [reflexivity|]. apply run_all_nil.
  - reflexivity.
Defined.

Lemma fuzzPartial_ignores_excluded_witness :
  func (fuzzPartial examplePartial) 1 [numberEncoder; stringEncoder] tt
  = func (fuzzPartial examplePartial) 1
      [numberEncoder; exampleUnionEncoder] tt.
Proof.
  apply (fuzzPartial_ignores_excluded examplePartial 1
           [numberEncoder; stringEncoder]
           [numberEncoder; exampleUnionEncoder] tt).
  - reflexivity.
  - intros [|i] _ Hbit; [reflexivity|].
    change 1 with (2 ^ 0) in Hbit.
    rewrite Z.pow2_bits_false in Hbit by lia. discriminate.
Defined.

Lemma fuzzPartial_multiple_of_2_32_witness :
  func (fuzzPartial examplePartial) (2 ^ 32) examplePartialChildren tt
  = (Ok (VObj []), tt).
Proof.
  apply (fuzzPartial_multiple_of_2_32 examplePartial (2 ^ 32)
           examplePartialChildren tt).
  reflexivity.
Defined.

Lemma fuzzPartial_names_period_witness :
  ∃ o o',
    func (fuzzPartial examplePartial) 1 examplePartialChildren tt
    = (Ok (VObj o), tt)
    ∧ func (fuzzPartial examplePartial) (1 + 1 * 2 ^ 32)
        examplePartialChildren tt = (Ok (VObj o'), tt)
    ∧ Obj.getOwnPropertyNames o = Obj.getOwnPropertyNames o'.
Proof.
  apply (fuzzPartial_names_period examplePartial 1 1 examplePartialChildren
           [VNum 1; VStr "1"] [VNum 4294967297; VStr "4294967297"] tt).
  - apply (bool_decide_unpack _). vm_compute. exact I.
  - repeat constructor.
  - repeat constructor.
  - reflexivity.
Defined.

Lemma fuzzPartial_within_fuzzInterface_witness :
  ∃ o o',
    func (fuzzPartial examplePartial) 2 examplePartialChildren tt
    = (Ok (VObj o), tt)
    ∧ func (fuzzInterface examplePartial) 2 examplePartialChildren tt
      = (Ok (VObj o'), tt)
    ∧ o `sublist_of` o'.
Proof.
  apply (fuzzPartial_within_fuzzInterface examplePartial 2
           examplePartialChildren [VNum 2; VStr "2"] tt).
  - apply (bool_decide_unpack _). vm_compute. exact I.
  - repeat constructor.
  - reflexivity.
Defined.

Lemma fuzzPartial_all_bits_is_fuzzInterface_witness :
  func (fuzzPartial examplePartial) (-1) examplePartialChildren tt
  = func (fuzzInterface examplePartial) (-1) examplePartialChildren tt.
Proof.
  apply (fuzzPartial_all_bits_is_fuzzInterface examplePartial (-1)
           examplePartialChildren tt).
  - simpl. lia.
  - intros i _. apply Z.bits_m1. lia.
Defined.

Lemma fuzzPartial_single_property_witness :
  func (fuzzPartial examplePartial) (2 ^ Z.of_nat 1) examplePartialChildren tt
  = (Ok (VObj [("b", VStr "2")]), tt).
Proof.
  apply (fuzzPartial_single_property examplePartial 1 examplePartialChildren
           "b" stringEncoder (VStr "2") tt tt); [lia|reflexivity..].
Defined.

Lemma fuzzPartial_at_most_32_witness :
  ∃ o, VObj ((λ i : nat, ("p" +:+ pretty i, VNum (-1))) <$> seq 0 32) = VObj o
       ∧ (length o ≤ 32)%nat.
Proof.
  apply (fuzzPartial_at_most_32 (World:=unit) (t.partial props33) (-1)
           (replicate 33 numberEncoder) tt _ tt).
  vm_compute. reflexivity.
Defined.
